(** * A shallow embedding of the awful-proof-assistant checker

    The development follows the TypeScript sources:
    - [parser.ts]  : the [Expr] and [Statement] types, the lexer [lex] and
                     the recursive-descent parser;
    - [index.ts]   : the kernel ([update_refs], [replace], [simp_value],
                     [deep_eq]), the checker ([type_of], [apply_type],
                     [member_of]), the resolver [rename] and the driver loop.

    Conventions of the embedding:
    - a JavaScript [number] used as a de Bruijn index is an unbounded
      integer ([Z]); the checker only ever adds and subtracts small integers;
    - a [throw] is the [Throw] completion carrying the error message;
    - [simp_value] may loop for ever, so it takes a fuel argument which
      bounds the depth of the call stack; [OutOfFuel] means that the bound
      was reached, never that the program stopped;
    - JavaScript arrays used as stacks ([refs], [bound]) are lists in array
      order: [push] appends at the end and the top of the stack is the last
      element;
    - the object [defs] is a finite map from names to entries.  Names that
      JavaScript would find on [Object.prototype] are not modelled;
    - the input text is a list of characters of one byte each; the lexer
      tells apart only characters of the ASCII range, every other
      character falls in the same classes whatever its width. *)

From Stdlib Require Import ZArith String Ascii List Lia Bool.
From stdpp Require Import base option list gmap strings pretty.

Local Open Scope string_scope.
Local Open Scope list_scope.
Local Open Scope Z_scope.

(** ** Completions *)

Inductive completion (A : Type) : Type :=
| Normal (a : A)
| Throw (msg : string)
| OutOfFuel.

Arguments Normal {A} a.
Arguments Throw {A} msg.
Arguments OutOfFuel {A}.

Definition bind {A B : Type} (c : completion A) (k : A -> completion B)
  : completion B :=
  match c with
  | Normal a => k a
  | Throw msg => Throw msg
  | OutOfFuel => OutOfFuel
  end.

Notation "'let*' x ':=' c 'in' k" := (bind c (fun x => k))
  (at level 10, x pattern, c at level 100, k at level 200, only parsing).

Definition returns {A : Type} (c : completion A) : Prop :=
  exists a, c = Normal a.

Definition throws {A : Type} (c : completion A) : Prop :=
  exists msg, c = Throw msg.

(** ** Expressions ([parser.ts], type [Expr])

    The tag [sorry] is not part of the declared union but [index.ts] stores
    an object of that tag as the type of [SORRY]; it is a constructor here. *)

Inductive Expr : Type :=
| Pi (head tail : Expr)
| Lambda (head tail : Expr)
| Application (fn value : Expr)
| Ident (name : string)
| Error
| Ref (index : Z)
| Binding (name : string) (ty : Expr)
| Sorry.

#[global] Instance Expr_eq_dec : EqDecision Expr.
Proof. solve_decision. Defined.

(** The value of the [type] field. *)
Definition type_tag (e : Expr) : string :=
  match e with
  | Pi _ _ => "pi"
  | Lambda _ _ => "lambda"
  | Application _ _ => "application"
  | Ident _ => "ident"
  | Error => "error"
  | Ref _ => "ref"
  | Binding _ _ => "binding"
  | Sorry => "sorry"
  end.

Record Statement : Type := mkStatement {
  stmt_ident : string;
  stmt_ty : Expr;
  stmt_def : option Expr
}.

(** ** The global environment ([index.ts], type [Defs]) *)

Record DefEntry : Type := mkDef {
  ty : Expr;
  def : option Expr
}.

Abbreviation Defs := (gmap string DefEntry).

Definition error_ty : Expr := Error.

(** [defs] as it stands before the driver loop: [Type] and [SORRY]. *)
Definition initial_defs : Defs :=
  <["SORRY" := mkDef Sorry None]> (<["Type" := mkDef error_ty None]> ∅).

(** ** Tokens ([parser.ts], type [Token]) *)

Inductive Punct : Type :=
| FatArrow | Arrow | ColonEq | LParen | RParen | Colon | Semi.

Inductive Token : Type :=
| TokIdent (name : string)
| TokPunct (op : Punct)
| TokWhitespace
| TokComment (comment : string).

#[global] Instance Punct_eq_dec : EqDecision Punct.
Proof. solve_decision. Defined.

#[global] Instance Token_eq_dec : EqDecision Token.
Proof. solve_decision. Defined.

(** ** Output

    What the program prints and writes.  [console.log] receives a string
    or, in the parser, an array of tokens; [write] receives a path and the
    environment to serialise. *)

Inductive LogValue : Type :=
| LogString (line : string)
| LogTokens (tokens : list Token).

Inductive Effect (D : Type) : Type :=
| ConsoleLog (v : LogValue)
| WriteFile (path : string) (data : D).

Arguments ConsoleLog {D} v.
Arguments WriteFile {D} path data.

(** ** Programs with output

    A run yields the output it produced and its completion; a [throw] keeps
    what was printed before it. *)

Definition io (A : Type) : Type := list (Effect Defs) * completion A.

Definition ret {A : Type} (a : A) : io A := ([], Normal a).

Definition throw {A : Type} (msg : string) : io A := ([], Throw msg).

Definition lift {A : Type} (c : completion A) : io A := ([], c).

Definition console_log (v : LogValue) : io unit := ([ConsoleLog v], Normal tt).

Definition write (path : string) (data : Defs) : io unit :=
  ([WriteFile path data], Normal tt).

Definition io_bind {A B : Type} (m : io A) (k : A -> io B) : io B :=
  match m with
  | (out, Normal a) => let (out', r) := k a in (out ++ out', r)
  | (out, Throw msg) => (out, Throw msg)
  | (out, OutOfFuel) => (out, OutOfFuel)
  end.

Notation "'let**' x ':=' c 'in' k" := (io_bind c (fun x => k))
  (at level 10, x pattern, c at level 100, k at level 200, only parsing).

Definition output {A : Type} (m : io A) : list (Effect Defs) := fst m.

Definition outcome {A : Type} (m : io A) : completion A := snd m.

(** ** Regular expressions

    The four patterns of [lex] use character classes, concatenation,
    alternation and the greedy quantifiers [*] and [+].  [rmatch] is the
    backtracking matcher of ECMAScript for that fragment: alternatives are
    tried left to right, a quantifier first tries one more iteration, and
    an iteration that consumes nothing is rejected.  The continuation
    receives the input that is left. *)

Inductive regex : Type :=
| CharSet (negated : bool) (chars : list ascii) (ranges : list (ascii * ascii))
| Seq (r1 r2 : regex)
| Alt (r1 r2 : regex)
| Star (r : regex).

Definition Chr (c : ascii) : regex := CharSet false [c] [].

Definition Plus (r : regex) : regex := Seq r (Star r).

Definition in_range (c : ascii) (range : ascii * ascii) : bool :=
  ((N_of_ascii (fst range) <=? N_of_ascii c)
   && (N_of_ascii c <=? N_of_ascii (snd range)))%N.

Definition class_matches (negated : bool) (chars : list ascii)
    (ranges : list (ascii * ascii)) (c : ascii) : bool :=
  xorb negated (existsb (Ascii.eqb c) chars || existsb (in_range c) ranges).

Fixpoint star_loop
    (step : list ascii -> (list ascii -> option (list ascii))
            -> option (list ascii))
    (n : nat) (s : list ascii) (k : list ascii -> option (list ascii))
    : option (list ascii) :=
  match n with
  | O => k s
  | S n' =>
      match step s (fun s' =>
                      if (length s' <? length s)%nat
                      then star_loop step n' s' k else None) with
      | Some rest => Some rest
      | None => k s
      end
  end.

Fixpoint rmatch (r : regex) (s : list ascii)
    (k : list ascii -> option (list ascii)) : option (list ascii) :=
  match r with
  | CharSet negated chars ranges =>
      match s with
      | c :: s' => if class_matches negated chars ranges c then k s' else None
      | [] => None
      end
  | Seq r1 r2 => rmatch r1 s (fun s' => rmatch r2 s' k)
  | Alt r1 r2 =>
      match rmatch r1 s k with
      | Some rest => Some rest
      | None => rmatch r2 s k
      end
  | Star r' => star_loop (rmatch r') (length s) s k
  end.

(** [regex.lastIndex = start; regex.exec(text)] for a sticky regex: the
    matched text [m[0]], or [None] for [null]. *)
Definition exec_sticky (r : regex) (text : list ascii) (start : nat)
    : option (list ascii) :=
  if (length text <? start)%nat then None
  else
    let s := drop start text in
    match rmatch r s Some with
    | Some rest => Some (take (length s - length rest)%nat s)
    | None => None
    end.

(** ** The lexer ([parser.ts], [lex]) *)

Definition tab : ascii := "009"%char.
Definition cr : ascii := "013"%char.
Definition lf : ascii := "010"%char.

(** [/[A-Za-z0-9\._]+/y] *)
Definition ident_regex : regex :=
  Plus (CharSet false ["."; "_"]%char
          [("A", "Z"); ("a", "z"); ("0", "9")]%char).

(** [/[\t\r\n ]+/y] *)
Definition ws_regex : regex :=
  Plus (CharSet false [tab; cr; lf; " "%char] []).

(** [/\/\/[^\n]*/y] *)
Definition line_cmt_regex : regex :=
  Seq (Chr "/") (Seq (Chr "/") (Star (CharSet true [lf] []))).

(** [/\/\*([^\*]|\*[^\/])*\*\//y]: the opening, the group under the
    star, the closing. *)
Definition block_cmt_body : regex :=
  Alt (CharSet true ["*"%char] [])
      (Seq (Chr "*") (CharSet true ["/"%char] [])).

Definition block_cmt_end : regex := Seq (Chr "*") (Chr "/").

Definition block_cmt_regex : regex :=
  Seq (Chr "/") (Seq (Chr "*") (Seq (Star block_cmt_body) block_cmt_end)).

Definition punct_string (op : Punct) : string :=
  match op with
  | FatArrow => "=>"
  | Arrow => "->"
  | ColonEq => ":="
  | LParen => "("
  | RParen => ")"
  | Colon => ":"
  | Semi => ";"
  end.

Definition ops : list Punct :=
  [FatArrow; Arrow; ColonEq; LParen; RParen; Colon; Semi].

(** [text.startsWith(op, start)] *)
Definition starts_with (text : list ascii) (op : string) (start : nat) : bool :=
  let o := list_ascii_of_string op in
  bool_decide (take (length o) (drop start text) = o).

Definition lex (text : list ascii) (start : nat) : io (Token * nat) :=
  match exec_sticky ident_regex text start with
  | Some m => ret (TokIdent (string_of_list_ascii m), (start + length m)%nat)
  | None =>
  match exec_sticky ws_regex text start with
  | Some m => ret (TokWhitespace, (start + length m)%nat)
  | None =>
  match exec_sticky line_cmt_regex text start with
  | Some m => ret (TokComment (string_of_list_ascii m), (start + length m)%nat)
  | None =>
  match exec_sticky block_cmt_regex text start with
  | Some m => ret (TokComment (string_of_list_ascii m), (start + length m)%nat)
  | None =>
  match List.find (fun op => starts_with text (punct_string op) start) ops with
  | Some op =>
      ret (TokPunct op, (start + String.length (punct_string op))%nat)
  | None =>
      let** _ := console_log
                   (LogString (string_of_list_ascii (take start text))) in
      throw "lexer consumed no input"
  end end end end end.

(** ** The parser ([parser.ts])

    A [TokenStream] is an immutable array of tokens and a cursor; the
    functions below take the cursor and give back the new one.  The fuel
    bounds the nesting of calls: every call consumes a token before it
    recurses, so the parser itself always stops. *)

Inductive TokenType : Type :=
| TyIdent
| TyPunct (op : Punct)
| TyWhitespace
| TyComment.

#[global] Instance TokenType_eq_dec : EqDecision TokenType.
Proof. solve_decision. Defined.

Definition token_type (t : Token) : TokenType :=
  match t with
  | TokIdent _ => TyIdent
  | TokPunct op => TyPunct op
  | TokWhitespace => TyWhitespace
  | TokComment _ => TyComment
  end.

Definition type_name (t : TokenType) : string :=
  match t with
  | TyIdent => "ident"
  | TyPunct op => punct_string op
  | TyWhitespace => "whitespace"
  | TyComment => "comment"
  end.

Definition expect_token (tokens : list Token) (cursor : nat) (t : TokenType)
    : io (Token * nat) :=
  match tokens !! cursor with
  | None => throw ("expected " +:+ type_name t +:+ " but got EOF")
  | Some token =>
      if bool_decide (token_type token = t) then ret (token, S cursor)
      else
        let** _ := console_log (LogTokens (take cursor tokens)) in
        throw ("expected " +:+ type_name t +:+ " but got "
               +:+ type_name (token_type token))
  end.

Definition peek_token (tokens : list Token) (cursor : nat) : option Token :=
  tokens !! cursor.

(** [peek_token(tokens)?.type === t] *)
Definition peek_is (tokens : list Token) (cursor : nat) (t : TokenType) : bool :=
  match peek_token tokens cursor with
  | Some token => bool_decide (token_type token = t)
  | None => false
  end.

Definition token_ident (token : Token) : string :=
  match token with
  | TokIdent name => name
  | _ => ""
  end.

Inductive OpKind : Type := OpApplication | OpLambda | OpPi.

(** The two loops that close [parse_expression].  The local stack
    [cur_expr] is never empty: it is kept as its top and the list of the
    entries below, nearest first; [r_assoc_ops] likewise has its last
    pushed entry first. *)
Fixpoint fold_ops (ops : list OpKind) (tail : list Expr) (top : Expr)
    (below : list Expr) (r_assoc_ops : list OpKind)
    : Expr * list Expr * list OpKind :=
  match ops, tail with
  | OpApplication :: ops', rhs :: tail' =>
      fold_ops ops' tail' (Application top rhs) below r_assoc_ops
  | op :: ops', next :: tail' =>
      fold_ops ops' tail' next (top :: below) (op :: r_assoc_ops)
  | _, _ => (top, below, r_assoc_ops)
  end.

Fixpoint unwind_ops (r_assoc_ops : list OpKind) (below : list Expr)
    (result : Expr) : Expr :=
  match r_assoc_ops, below with
  | OpLambda :: r', head :: below' => unwind_ops r' below' (Lambda head result)
  | _ :: r', head :: below' => unwind_ops r' below' (Pi head result)
  | _, _ => result
  end.

Definition build_expression (expr : Expr) (tail : list Expr)
    (ops : list OpKind) : Expr :=
  let '(top, below, r_assoc_ops) := fold_ops ops tail expr [] [] in
  unwind_ops r_assoc_ops below top.

Fixpoint parse_atom (fuel : nat) (tokens : list Token) (cursor : nat)
    {struct fuel} : io (Expr * nat) :=
  match fuel with
  | O => lift OutOfFuel
  | S fuel' =>
      if peek_is tokens cursor (TyPunct LParen) then
        let** (_, cursor) := expect_token tokens cursor (TyPunct LParen) in
        let** (res, cursor) :=
          if peek_is tokens cursor TyIdent
             && peek_is tokens (S cursor) (TyPunct Colon)
          then
            let** (name, cursor) := expect_token tokens cursor TyIdent in
            let** (_, cursor) := expect_token tokens cursor (TyPunct Colon) in
            let** (expr, cursor) := parse_expression fuel' tokens cursor in
            ret (Binding (token_ident name) expr, cursor)
          else parse_expression fuel' tokens cursor in
        let** (_, cursor) := expect_token tokens cursor (TyPunct RParen) in
        ret (res, cursor)
      else if peek_is tokens cursor TyIdent then
        let** (name, cursor) := expect_token tokens cursor TyIdent in
        ret (Ident (token_ident name), cursor)
      else throw "cant"
  end

with parse_expression (fuel : nat) (tokens : list Token) (cursor : nat)
    {struct fuel} : io (Expr * nat) :=
  match fuel with
  | O => lift OutOfFuel
  | S fuel' =>
      let** (expr, cursor) := parse_atom fuel' tokens cursor in
      let** (tail, ops, cursor) := parse_tail fuel' tokens cursor [] [] in
      ret (build_expression expr tail ops, cursor)
  end

(** The [while (true)] loop of [parse_expression]. *)
with parse_tail (fuel : nat) (tokens : list Token) (cursor : nat)
    (tail : list Expr) (ops : list OpKind) {struct fuel}
    : io (list Expr * list OpKind * nat) :=
  match fuel with
  | O => lift OutOfFuel
  | S fuel' =>
      if peek_is tokens cursor TyIdent || peek_is tokens cursor (TyPunct LParen)
      then
        let** (atom, cursor) := parse_atom fuel' tokens cursor in
        parse_tail fuel' tokens cursor (tail ++ [atom]) (ops ++ [OpApplication])
      else if peek_is tokens cursor (TyPunct FatArrow) then
        let** (_, cursor) := expect_token tokens cursor (TyPunct FatArrow) in
        let** (atom, cursor) := parse_atom fuel' tokens cursor in
        parse_tail fuel' tokens cursor (tail ++ [atom]) (ops ++ [OpLambda])
      else if peek_is tokens cursor (TyPunct Arrow) then
        let** (_, cursor) := expect_token tokens cursor (TyPunct Arrow) in
        let** (atom, cursor) := parse_atom fuel' tokens cursor in
        parse_tail fuel' tokens cursor (tail ++ [atom]) (ops ++ [OpPi])
      else ret (tail, ops, cursor)
  end.

Definition parse_statement (fuel : nat) (tokens : list Token) (cursor : nat)
    : io (Statement * nat) :=
  let** (name, cursor) := expect_token tokens cursor TyIdent in
  let** (_, cursor) := expect_token tokens cursor (TyPunct Colon) in
  let** (t, cursor) := parse_expression fuel tokens cursor in
  let** (d, cursor) :=
    if peek_is tokens cursor (TyPunct ColonEq) then
      let** (_, cursor) := expect_token tokens cursor (TyPunct ColonEq) in
      let** (body, cursor) := parse_expression fuel tokens cursor in
      ret (Some body, cursor)
    else ret (None, cursor) in
  let** (_, cursor) := expect_token tokens cursor (TyPunct Semi) in
  ret (mkStatement (token_ident name) t d, cursor).

Fixpoint parse_statements (fuel : nat) (tokens : list Token) (cursor : nat)
    (stmts : list Statement) : io (list Statement) :=
  if (length tokens <=? cursor)%nat then ret stmts
  else
    match fuel with
    | O => lift OutOfFuel
    | S fuel' =>
        let** (stmt, cursor) := parse_statement fuel tokens cursor in
        parse_statements fuel' tokens cursor (stmts ++ [stmt])
    end.

(** The [while (start < text.length)] loop of [parse]. *)
Fixpoint tokenize (fuel : nat) (text : list ascii) (start : nat)
    (tokens : list Token) : io (list Token) :=
  if (length text <=? start)%nat then ret tokens
  else
    match fuel with
    | O => lift OutOfFuel
    | S fuel' =>
        let** (token, start) := lex text start in
        match token with
        | TokWhitespace | TokComment _ => tokenize fuel' text start tokens
        | _ => tokenize fuel' text start (tokens ++ [token])
        end
    end.

(** [parse(text)].  A token is at least one character long and every call
    of the parser consumes a token, so the fuel given here is never used
    up ([parse_finishes]). *)
Definition parse (text : string) : io (list Statement) :=
  let chars := list_ascii_of_string text in
  let** tokens := tokenize (length chars) chars 0 [] in
  parse_statements (2 * length tokens + 2) tokens 0 [].

(** ** The kernel ([index.ts]) *)

Fixpoint update_refs (value : Expr) (inc : Z) : Expr :=
  match value with
  | Ref index => Ref (index + inc)
  | Application fn v => Application (update_refs fn inc) (update_refs v inc)
  | Pi head tail => Pi (update_refs head inc) (update_refs tail inc)
  | _ => value
  end.

Fixpoint replace (tail value : Expr) (depth : Z) : completion Expr :=
  match tail with
  | Ref index =>
      if index =? depth then Normal (update_refs value (index - 1))
      else if index >? depth then Normal (Ref (index - 1))
      else Normal tail
  | Application fn v =>
      let* fn' := replace fn value depth in
      let* v' := replace v value depth in
      Normal (Application fn' v')
  | Pi head tl =>
      let* head' := replace head value depth in
      let* tl' := replace tl value (depth + 1) in
      Normal (Pi head' tl')
  | Ident name => Normal (Ident name)
  | _ => Throw ("replace: " +:+ type_tag tail)
  end.

Fixpoint print_expr (expr : Expr) : string :=
  match expr with
  | Lambda head tail =>
      "(" +:+ print_expr head +:+ " => " +:+ print_expr tail +:+ ")"
  | Pi head tail =>
      "(" +:+ print_expr head +:+ " -> " +:+ print_expr tail +:+ ")"
  | Application fn value =>
      "(" +:+ print_expr fn +:+ " " +:+ print_expr value +:+ ")"
  | Ident name => name
  | Ref index => "\" +:+ pretty index
  | _ => "<ERR>"
  end.

Fixpoint simp_value (fuel : nat) (expr : Expr) : completion Expr :=
  match fuel with
  | O => OutOfFuel
  | S fuel' =>
      match expr with
      | Application (Lambda _ tail) value =>
          let* arg := simp_value fuel' value in
          let* body := replace tail arg 1 in
          simp_value fuel' body
      | Application fn value =>
          let* fn' := simp_value fuel' fn in
          let* value' := simp_value fuel' value in
          Normal (Application fn' value')
      | Lambda head tail =>
          let* head' := simp_value fuel' head in
          let* tail' := simp_value fuel' tail in
          Normal (Lambda head' tail')
      | Pi head tail =>
          let* head' := simp_value fuel' head in
          let* tail' := simp_value fuel' tail in
          Normal (Pi head' tail')
      | _ => Normal expr
      end
  end.

Fixpoint deep_eq (a b : Expr) : completion bool :=
  match a with
  | Application afn avalue =>
      match b with
      | Application bfn bvalue =>
          let* r := deep_eq afn bfn in
          if r then deep_eq avalue bvalue else Normal false
      | _ => Normal false
      end
  | Lambda ahead atail =>
      match b with
      | Lambda bhead btail =>
          let* r := deep_eq ahead bhead in
          if r then deep_eq atail btail else Normal false
      | _ => Normal false
      end
  | Pi ahead atail =>
      match b with
      | Pi bhead btail =>
          let* r := deep_eq ahead bhead in
          if r then deep_eq atail btail else Normal false
      | _ => Normal false
      end
  | Ident aname =>
      match b with
      | Ident bname => Normal (bool_decide (aname = bname))
      | _ => Normal false
      end
  | Ref aindex =>
      match b with
      | Ref bindex => Normal (aindex =? bindex)
      | _ => Normal false
      end
  | _ => Throw "unreachable"
  end.

(** ** The checker ([index.ts])

    [type_of], [apply_type] and [member_of] call each other; [type_of] only
    ever descends into sub-expressions of [value], so it is a structural
    fixpoint and the other two take it as an argument before the knot is
    tied.  The fuel is spent by [simp_value] alone. *)

(** [refs[refs.length - index]]: [undefined] outside the array. *)
Definition refs_at (refs : list Expr) (index : Z) : option Expr :=
  let i := Z.of_nat (length refs) - index in
  if (0 <=? i) then refs !! Z.to_nat i else None.

Definition member_of_with (type_of : Expr -> list Expr -> completion Expr)
    (expr t : Expr) (refs : list Expr) : completion bool :=
  let* found := type_of expr refs in
  deep_eq found t.

Definition apply_type_with (type_of : Expr -> list Expr -> completion Expr)
    (fuel : nat) (fn value : Expr) (refs : list Expr) : completion Expr :=
  match fn with
  | Pi head tail =>
      let* ok := member_of_with type_of value head refs in
      if negb ok then
        let* found := type_of value refs in
        Throw ("Type mismatch: " +:+ print_expr value +:+ " has type "
               +:+ print_expr found +:+ ", which is not a member of "
               +:+ print_expr head)
      else
        let* body := replace tail value 1 in
        simp_value fuel body
  | Sorry => Normal value
  | _ => Throw "don't know how to do this"
  end.

Fixpoint type_of (fuel : nat) (defs : Defs) (value : Expr) (refs : list Expr)
    {struct value} : completion Expr :=
  match value with
  | Ident name =>
      match defs !! name with
      | None => Throw (name +:+ " not defined")
      | Some d => Normal (ty d)
      end
  | Lambda head tail =>
      let* tail_ty := type_of fuel defs tail (refs ++ [head]) in
      Normal (Pi head tail_ty)
  | Pi _ _ => Normal (Ident "Type")
  | Ref index =>
      match refs_at refs index with
      | Some r => Normal (update_refs r index)
      | None => Normal value
      end
  | Application fn arg =>
      let* fun_ty := type_of fuel defs fn refs in
      apply_type_with (type_of fuel defs) fuel fun_ty arg refs
  | _ => Throw ("type_of: " +:+ type_tag value)
  end.

Definition apply_type (fuel : nat) (defs : Defs) (fn value : Expr)
    (refs : list Expr) : completion Expr :=
  apply_type_with (type_of fuel defs) fuel fn value refs.

Definition member_of (fuel : nat) (defs : Defs) (expr t : Expr)
    (refs : list Expr) : completion bool :=
  member_of_with (type_of fuel defs) expr t refs.

(** ** The resolver ([index.ts], [rename]) *)

(** The loop [for (let i = 1; i <= bound.length; i++)] over
    [bound[bound.length - i]], on the reversed array. *)
Fixpoint bound_index (rev_bound : list (option string)) (name : string)
    (i : Z) : option Z :=
  match rev_bound with
  | [] => None
  | b :: rest =>
      if bool_decide (b = Some name) then Some i
      else bound_index rest name (i + 1)
  end.

Fixpoint rename (defs : Defs) (expr : Expr) (bound : list (option string))
    {struct expr} : completion Expr :=
  match expr with
  | Application fn value =>
      let* fn' := rename defs fn bound in
      let* value' := rename defs value bound in
      Normal (Application fn' value')
  | Lambda (Binding name t) tail =>
      let* new_head := rename defs t bound in
      let* tail' := rename defs tail (bound ++ [Some name]) in
      Normal (Lambda new_head tail')
  | Lambda head tail =>
      let* new_head := rename defs head bound in
      let* tail' := rename defs tail (bound ++ [None]) in
      Normal (Lambda new_head tail')
  | Pi (Binding name t) tail =>
      let* new_head := rename defs t bound in
      let* tail' := rename defs tail (bound ++ [Some name]) in
      Normal (Pi new_head tail')
  | Pi head tail =>
      let* new_head := rename defs head bound in
      let* tail' := rename defs tail (bound ++ [None]) in
      Normal (Pi new_head tail')
  | Ident name =>
      match bound_index (reverse bound) name 1 with
      | Some i => Normal (Ref i)
      | None =>
          match defs !! name with
          | Some d =>
              match def d with
              | Some body => Normal body
              | None => Normal expr
              end
          | None => Throw (name +:+ " not defined")
          end
      end
  | Binding _ _ => Throw "found a binding outside lambda or pi"
  | Error => Throw "error"
  | Ref _ => Throw "error"
  | Sorry => Throw "unreachable"
  end.

(** ** The driver loop ([index.ts]) *)

Definition check_stmt (fuel : nat) (defs : Defs) (stmt : Statement)
    : io Defs :=
  let** t := lift (rename defs (stmt_ty stmt) []) in
  let** d :=
    match stmt_def stmt with
    | Some body => let** body' := lift (rename defs body []) in ret (Some body')
    | None => ret None
    end in
  let** _ :=
    match d with
    | Some body =>
        let** ok := lift (member_of fuel defs body t []) in
        if ok then
          console_log (LogString ("Proof '" +:+ stmt_ident stmt +:+ "' passed"))
        else
          let** found := lift (type_of fuel defs body []) in
          throw ("Proof '" +:+ stmt_ident stmt +:+ "' failed: "
                 +:+ print_expr body +:+ " has type " +:+ print_expr found
                 +:+ ", which is not a member of " +:+ print_expr t)
    | None => ret tt
    end in
  ret (<[stmt_ident stmt := mkDef t d]> defs).

Fixpoint driver (fuel : nat) (ast : list Statement) (defs : Defs) : io Defs :=
  match ast with
  | [] => ret defs
  | stmt :: rest =>
      let** defs' := check_stmt fuel defs stmt in
      driver fuel rest defs'
  end.

(** The whole of [index.ts] on the text of the input file: parse, seed the
    environment, run the loop.  Nothing follows the loop. *)
Definition main (fuel : nat) (text : string) : io Defs :=
  let** ast := parse text in
  driver fuel ast initial_defs.

(** ** The first draft of the driver

    The repository keeps an earlier [index.ts].  Its resolver and its
    [deep_eq] are the ones above and its loop is the same up to one
    debugging line, but a call of [write] follows the loop.  Its checker is
    older (no [SORRY], no [update_refs]) and can hand out [undefined],
    which [Expr] does not have; it is left abstract here, together with its
    printer. *)

Definition draft_initial_defs : Defs :=
  <["Type" := mkDef error_ty None]> ∅.

Section Draft.

Variable draft_type_of : Defs -> Expr -> completion Expr.
Variable draft_print_expr : Expr -> string.

Definition draft_member_of (defs : Defs) (expr t : Expr) : completion bool :=
  let* found := draft_type_of defs expr in
  deep_eq found t.

Definition draft_check_stmt (defs : Defs) (stmt : Statement) : io Defs :=
  let** t := lift (rename defs (stmt_ty stmt) []) in
  let** d :=
    match stmt_def stmt with
    | Some body => let** body' := lift (rename defs body []) in ret (Some body')
    | None => ret None
    end in
  let** _ :=
    match d with
    | Some body =>
        let** _ :=
          if bool_decide (stmt_ident stmt = "zero_add_implies_zero_add_succ")
          then console_log (LogString "debugger") else ret tt in
        let** ok := lift (draft_member_of defs body t) in
        if ok then
          console_log (LogString ("Proof '" +:+ stmt_ident stmt +:+ "' passed"))
        else
          let** found := lift (draft_type_of defs body) in
          throw ("Proof '" +:+ stmt_ident stmt +:+ "' failed: "
                 +:+ draft_print_expr body +:+ " has type "
                 +:+ draft_print_expr found
                 +:+ ", which is not a member of " +:+ draft_print_expr t)
    | None => ret tt
    end in
  ret (<[stmt_ident stmt := mkDef t d]> defs).

Fixpoint draft_driver (ast : list Statement) (defs : Defs) : io Defs :=
  match ast with
  | [] => ret defs
  | stmt :: rest =>
      let** defs' := draft_check_stmt defs stmt in
      draft_driver rest defs'
  end.

(** The draft as a whole; [JSON.stringify(defs, null, 2)] is the
    environment itself. *)
Definition draft_main (text : string) : io unit :=
  let** ast := parse text in
  let** defs := draft_driver ast draft_initial_defs in
  write "./dump.json" defs.

End Draft.

(** ** Notions of the specification *)

(** Index shifting as the specification words it: add [k] to the index of
    every [Ref] of [e], going through [Application], [Pi] and [Lambda]
    alike, with no adjustment for depth. *)
Fixpoint shift (e : Expr) (k : Z) : Expr :=
  match e with
  | Ref index => Ref (index + k)
  | Application fn v => Application (shift fn k) (shift v k)
  | Pi head tail => Pi (shift head k) (shift tail k)
  | Lambda head tail => Lambda (shift head k) (shift tail k)
  | _ => e
  end.

(** The lifting of free references only: a [Ref] met under [d] binders of
    [e] itself is free when its index is above [d]. *)
Fixpoint shift_free (d : Z) (e : Expr) (k : Z) : Expr :=
  match e with
  | Ref index => if index >? d then Ref (index + k) else Ref index
  | Application fn v => Application (shift_free d fn k) (shift_free d v k)
  | Pi head tail => Pi (shift_free d head k) (shift_free (d + 1) tail k)
  | Lambda head tail => Lambda (shift_free d head k) (shift_free (d + 1) tail k)
  | _ => e
  end.

(** A [Lambda] node at any position of [e]. *)
Fixpoint contains_lambda (e : Expr) : bool :=
  match e with
  | Lambda _ _ => true
  | Pi head tail => contains_lambda head || contains_lambda tail
  | Application fn v => contains_lambda fn || contains_lambda v
  | Binding _ t => contains_lambda t
  | _ => false
  end.

(** A beta-redex, [Application (Lambda _ _) _], at any position of [e]. *)
Fixpoint contains_redex (e : Expr) : bool :=
  match e with
  | Application (Lambda head tail) v =>
      true
  | Application fn v => contains_redex fn || contains_redex v
  | Lambda head tail => contains_redex head || contains_redex tail
  | Pi head tail => contains_redex head || contains_redex tail
  | Binding _ t => contains_redex t
  | _ => false
  end.

(** What the block comment pattern does after the opening [/*], as a
    scan: a star takes the next character with it unless that character is
    a slash, which ends the comment.  The result is the input left after
    the comment. *)
Definition star : ascii := "*"%char.
Definition slash : ascii := "/"%char.

Fixpoint block_body (s : list ascii) : option (list ascii) :=
  match s with
  | [] => None
  | c :: s' =>
      if Ascii.eqb c star then
        match s' with
        | [] => None
        | c' :: s'' => if Ascii.eqb c' slash then Some s'' else block_body s''
        end
      else block_body s'
  end.

(** The self-application [(T => \1 \1) (T => \1 \1)]. *)
Definition self_apply : Expr :=
  Lambda (Ident "T") (Application (Ref 1) (Ref 1)).

Definition omega : Expr := Application self_apply self_apply.

(** ** Notions about runs and patterns *)

(** A run that only prints: no [write] in its output. *)
Definition quiet {A : Type} (m : io A) : Prop :=
  forall path data, WriteFile path data ∉ output m.

(** A run that comes to an end, by a value or by a [throw]. *)
Definition finishes {A : Type} (m : io A) : Prop := outcome m <> OutOfFuel.

(** A pattern that cannot match the empty string. *)
Fixpoint consumes (r : regex) : bool :=
  match r with
  | CharSet _ _ _ => true
  | Seq r1 r2 => consumes r1 || consumes r2
  | Alt r1 r2 => consumes r1 && consumes r2
  | Star _ => false
  end.

(** ** Notions for the further properties *)

(** The expressions [replace] can go through: [Ref], [Ident],
    [Application] and [Pi] all the way down. *)
Fixpoint substitutable (e : Expr) : bool :=
  match e with
  | Ref _ => true
  | Ident _ => true
  | Application fn v => substitutable fn && substitutable v
  | Pi head tail => substitutable head && substitutable tail
  | _ => false
  end.

(** A substitutable expression in which no [Ref] reaches the binder at
    [depth] or a binder outside it. *)
Fixpoint refs_below (depth : Z) (e : Expr) : bool :=
  match e with
  | Ref index => index <? depth
  | Ident _ => true
  | Application fn v => refs_below depth fn && refs_below depth v
  | Pi head tail => refs_below depth head && refs_below (depth + 1) tail
  | _ => false
  end.

(** The expressions [deep_eq] can compare: no [Error], [Binding] or
    [Sorry] node. *)
Fixpoint comparable (e : Expr) : bool :=
  match e with
  | Ref _ => true
  | Ident _ => true
  | Application fn v => comparable fn && comparable v
  | Pi head tail => comparable head && comparable tail
  | Lambda head tail => comparable head && comparable tail
  | _ => false
  end.

(** A resolved expression under [d] binders: no [Binding], [Error] or
    [Sorry] node, and every [Ref] between 1 and the number of binders
    around it. *)
Fixpoint resolved (d : Z) (e : Expr) : bool :=
  match e with
  | Ref index => (1 <=? index) && (index <=? d)
  | Ident _ => true
  | Application fn v => resolved d fn && resolved d v
  | Pi head tail => resolved d head && resolved (d + 1) tail
  | Lambda head tail => resolved d head && resolved (d + 1) tail
  | _ => false
  end.

(** An environment the driver can have built: every body is resolved and
    closed, and so is every type but the two sentinels. *)
Definition env_resolved (defs : Defs) : Prop :=
  forall name d, defs !! name = Some d ->
    (ty d = Error \/ ty d = Sorry \/ resolved 0 (ty d) = true)
    /\ (forall body, def d = Some body -> resolved 0 body = true).

Definition has_body (stmt : Statement) : bool :=
  match stmt_def stmt with
  | Some _ => true
  | None => false
  end.

(** The line the driver prints for a declaration that passed. *)
Definition passed_line (stmt : Statement) : Effect Defs :=
  ConsoleLog (LogString ("Proof '" +:+ stmt_ident stmt +:+ "' passed")).

(** The binder an arrow of the parser stands for. *)
Definition binder_of (op : OpKind) (head tail : Expr) : Expr :=
  match op with
  | OpLambda => Lambda head tail
  | _ => Pi head tail
  end.

(** The characters of the first two patterns of [lex]. *)
Definition ident_char (c : ascii) : bool :=
  class_matches false ["."; "_"]%char
    [("A", "Z"); ("a", "z"); ("0", "9")]%char c.

Definition ws_char (c : ascii) : bool :=
  class_matches false [tab; cr; lf; " "%char] [] c.

(** A token the parser gets to see. *)
Definition significant (t : Token) : bool :=
  match t with
  | TokWhitespace | TokComment _ => false
  | _ => true
  end.

(** The expressions the resolver has nothing to do on: built from
    axioms of the environment that no entry of [bound] hides, with
    applications and anonymous binders. *)
Fixpoint axioms_only (defs : Defs) (bound : list (option string)) (e : Expr)
    : Prop :=
  match e with
  | Ident name =>
      (exists d, defs !! name = Some d /\ def d = None) /\ Some name ∉ bound
  | Application fn v => axioms_only defs bound fn /\ axioms_only defs bound v
  | Pi head tail | Lambda head tail =>
      (forall name t, head <> Binding name t)
      /\ axioms_only defs bound head /\ axioms_only defs bound tail
  | _ => False
  end.

(** An identifier the lexer reads back as it is written. *)
Definition valid_ident (name : string) : Prop :=
  list_ascii_of_string name <> []
  /\ Forall (fun c => ident_char c = true) (list_ascii_of_string name).

(** The expressions of the surface syntax that [print_expr] writes in
    full: identifiers, applications and binders without names. *)
Fixpoint printable (e : Expr) : Prop :=
  match e with
  | Ident name => valid_ident name
  | Application fn v => printable fn /\ printable v
  | Pi head tail | Lambda head tail => printable head /\ printable tail
  | _ => False
  end.

(** The tokens of what [print_expr] writes. *)
Fixpoint unparse (e : Expr) : list Token :=
  match e with
  | Ident name => [TokIdent name]
  | Application fn v =>
      TokPunct LParen :: unparse fn ++ unparse v ++ [TokPunct RParen]
  | Pi head tail =>
      TokPunct LParen :: unparse head ++ TokPunct Arrow :: unparse tail
        ++ [TokPunct RParen]
  | Lambda head tail =>
      TokPunct LParen :: unparse head ++ TokPunct FatArrow :: unparse tail
        ++ [TokPunct RParen]
  | _ => []
  end.

(** What the loop of [parse] does with a token. *)
Definition keep (token : Token) (tokens : list Token) : list Token :=
  if significant token then tokens ++ [token] else tokens.

(** The characters [print_expr] writes for an expression. *)
Definition chars (e : Expr) : list ascii :=
  list_ascii_of_string (print_expr e).

(** * Properties *)

(** ** Completions *)

Lemma bind_normal {A B : Type} (c : completion A) (k : A -> completion B) b :
  bind c k = Normal b -> exists a, c = Normal a /\ k a = Normal b.
Proof. destruct c as [a| |]; simpl; intros H; try discriminate; eauto. Qed.

Lemma bind_throws {A B : Type} (c : completion A) (k : A -> completion B) :
  throws c -> throws (bind c k).
Proof. intros [msg ->]. exists msg. reflexivity. Qed.

Lemma throws_not_returns {A : Type} (c : completion A) :
  throws c -> ~ returns c.
Proof. intros [msg ->] [a H]. discriminate. Qed.

(** ** Index shifting *)

Lemma update_refs_lambda head tail inc :
  update_refs (Lambda head tail) inc = Lambda head tail.
Proof. reflexivity. Qed.

(** Outside [Lambda] nodes [update_refs] is the shift of the
    specification. *)
Lemma update_refs_shift e k :
  contains_lambda e = false -> update_refs e k = shift e k.
Proof.
  induction e as [h IHh t IHt|h IHh t IHt|f IHf v IHv| | | | |];
    simpl; intros H; try reflexivity; try discriminate.
  - apply orb_false_iff in H as [Hh Ht]. rewrite IHh, IHt; auto.
  - apply orb_false_iff in H as [Hf Hv]. rewrite IHf, IHv; auto.
Qed.

Lemma update_refs_zero e : update_refs e 0 = e.
Proof.
  induction e; simpl; try reflexivity.
  - rewrite IHe1, IHe2. reflexivity.
  - rewrite IHe1, IHe2. reflexivity.
  - rewrite Z.add_0_r. reflexivity.
Qed.

Lemma update_refs_compose e j k :
  update_refs (update_refs e j) k = update_refs e (j + k).
Proof.
  induction e; simpl; try reflexivity.
  - rewrite IHe1, IHe2. reflexivity.
  - rewrite IHe1, IHe2. reflexivity.
  - rewrite Z.add_assoc. reflexivity.
Qed.

(** ** Substitution: the rules of [replace] *)

Lemma replace_ref_eq value depth :
  replace (Ref depth) value depth = Normal (update_refs value (depth - 1)).
Proof. simpl. rewrite Z.eqb_refl. reflexivity. Qed.

Lemma replace_ref_gt i value depth :
  depth < i -> replace (Ref i) value depth = Normal (Ref (i - 1)).
Proof.
  intros H. simpl.
  destruct (Z.eqb_spec i depth); [lia|].
  destruct (Z.gtb_spec i depth); [reflexivity|lia].
Qed.

Lemma replace_ref_lt i value depth :
  i < depth -> replace (Ref i) value depth = Normal (Ref i).
Proof.
  intros H. simpl.
  destruct (Z.eqb_spec i depth); [lia|].
  destruct (Z.gtb_spec i depth); [lia|reflexivity].
Qed.

Lemma replace_application fn v value depth :
  replace (Application fn v) value depth =
  (let* fn' := replace fn value depth in
   let* v' := replace v value depth in
   Normal (Application fn' v')).
Proof. reflexivity. Qed.

Lemma replace_pi head tail value depth :
  replace (Pi head tail) value depth =
  (let* head' := replace head value depth in
   let* tail' := replace tail value (depth + 1) in
   Normal (Pi head' tail')).
Proof. reflexivity. Qed.

Lemma replace_ident name value depth :
  replace (Ident name) value depth = Normal (Ident name).
Proof. reflexivity. Qed.

(** With a value free of [Lambda] nodes the first rule is the one of the
    specification. *)
Lemma replace_ref_eq_shift value depth :
  contains_lambda value = false ->
  replace (Ref depth) value depth = Normal (shift value (depth - 1)).
Proof. intros H. rewrite replace_ref_eq, update_refs_shift; auto. Qed.

(** [replace] never runs out of fuel: it has none. *)
Lemma replace_total tail value depth :
  returns (replace tail value depth) \/ throws (replace tail value depth).
Proof.
  revert depth.
  induction tail as [h IHh t IHt| |f IHf v IHv|n| |i| |]; intros depth; simpl;
    try (right; eexists; reflexivity); try (left; eexists; reflexivity).
  - destruct (IHh depth) as [[h' ->]|[m ->]]; simpl;
      [|right; eexists; reflexivity].
    destruct (IHt (depth + 1)) as [[t' ->]|[m ->]]; simpl;
      [left|right]; eexists; reflexivity.
  - destruct (IHf depth) as [[f' ->]|[m ->]]; simpl;
      [|right; eexists; reflexivity].
    destruct (IHv depth) as [[v' ->]|[m ->]]; simpl;
      [left|right]; eexists; reflexivity.
  - destruct (i =? depth); [left; eexists; reflexivity|].
    destruct (i >? depth); left; eexists; reflexivity.
Qed.

(** [replace] refuses every [tail] with a [Lambda] node in it. *)
Lemma replace_lambda_throws tail value depth :
  contains_lambda tail = true -> throws (replace tail value depth).
Proof.
  revert depth.
  induction tail as [h IHh t IHt|h IHh t IHt|f IHf v IHv|n| |i|n t IHt|];
    intros depth; simpl; intros H; try discriminate;
    try (eexists; reflexivity).
  - destruct (contains_lambda h) eqn:Hh.
    + apply bind_throws. auto.
    + simpl in H.
      destruct (replace_total h value depth) as [[h' ->]|Ht]; simpl;
        [|apply bind_throws; exact Ht].
      apply bind_throws. auto.
  - destruct (contains_lambda f) eqn:Hf.
    + apply bind_throws. auto.
    + simpl in H.
      destruct (replace_total f value depth) as [[f' ->]|Ht]; simpl;
        [|apply bind_throws; exact Ht].
      apply bind_throws. auto.
Qed.

(** ** Normalisation: [simp_value] and its fuel *)

Lemma simp_value_redex n head tail value :
  simp_value (S n) (Application (Lambda head tail) value) =
  (let* arg := simp_value n value in
   let* body := replace tail arg 1 in
   simp_value n body).
Proof. reflexivity. Qed.

Lemma simp_value_application n fn value :
  (forall head tail, fn <> Lambda head tail) ->
  simp_value (S n) (Application fn value) =
  (let* fn' := simp_value n fn in
   let* value' := simp_value n value in
   Normal (Application fn' value')).
Proof. intros H. destruct fn; try reflexivity. destruct (H fn1 fn2 eq_refl). Qed.

Lemma simp_value_lambda n head tail :
  simp_value (S n) (Lambda head tail) =
  (let* head' := simp_value n head in
   let* tail' := simp_value n tail in
   Normal (Lambda head' tail')).
Proof. reflexivity. Qed.

Lemma simp_value_pi n head tail :
  simp_value (S n) (Pi head tail) =
  (let* head' := simp_value n head in
   let* tail' := simp_value n tail in
   Normal (Pi head' tail')).
Proof. reflexivity. Qed.

Lemma bind_fuel {A B : Type} (c c' : completion A)
    (k k' : A -> completion B) :
  (c <> OutOfFuel -> c' = c) ->
  (forall a, c = Normal a -> k a <> OutOfFuel -> k' a = k a) ->
  bind c k <> OutOfFuel -> bind c' k' = bind c k.
Proof.
  destruct c as [a|msg|]; simpl; intros Hc Hk H.
  - rewrite Hc by discriminate. simpl. auto.
  - rewrite Hc by discriminate. reflexivity.
  - congruence.
Qed.

(** More fuel never changes a result. *)
Lemma simp_value_fuel_S n : forall e,
  simp_value n e <> OutOfFuel -> simp_value (S n) e = simp_value n e.
Proof.
  induction n as [|n IH]; intros e H; [simpl in H; congruence|].
  destruct e as [h t|h t|f v|x| |i|x t|]; try reflexivity.
  - rewrite (simp_value_pi (S n)). rewrite simp_value_pi in H |- *.
    apply bind_fuel; [apply IH| |exact H].
    intros a _ Ha. apply bind_fuel; [apply IH|reflexivity|exact Ha].
  - rewrite (simp_value_lambda (S n)). rewrite simp_value_lambda in H |- *.
    apply bind_fuel; [apply IH| |exact H].
    intros a _ Ha. apply bind_fuel; [apply IH|reflexivity|exact Ha].
  - assert (Hf : (exists head tail, f = Lambda head tail)
                 \/ forall head tail, f <> Lambda head tail).
    { destruct f; try (right; intros; discriminate). left; eauto. }
    destruct Hf as [(head & tail & ->)|Hf].
    + rewrite (simp_value_redex (S n)). rewrite simp_value_redex in H |- *.
      apply bind_fuel; [apply IH| |exact H].
      intros a _ Ha. apply bind_fuel; [reflexivity| |exact Ha].
      intros body _ Hb. apply IH. exact Hb.
    + rewrite (simp_value_application (S n)) by exact Hf.
      rewrite simp_value_application in H |- * by exact Hf.
      apply bind_fuel; [apply IH| |exact H].
      intros a _ Ha. apply bind_fuel; [apply IH|reflexivity|exact Ha].
Qed.

Lemma simp_value_fuel_le n m e :
  (n <= m)%nat -> simp_value n e <> OutOfFuel ->
  simp_value m e = simp_value n e.
Proof.
  induction 1 as [|m Hle IH]; intros H; [reflexivity|].
  rewrite simp_value_fuel_S; rewrite IH; auto.
Qed.

(** Two runs that both return agree, whatever their fuel. *)
Lemma simp_value_deterministic n m e r r' :
  simp_value n e = Normal r -> simp_value m e = Normal r' -> r = r'.
Proof.
  intros Hn Hm.
  destruct (Nat.le_ge_cases n m) as [Hle|Hle].
  - rewrite (simp_value_fuel_le n m e Hle) in Hm by (rewrite Hn; discriminate).
    congruence.
  - rewrite (simp_value_fuel_le m n e Hle) in Hn by (rewrite Hm; discriminate).
    congruence.
Qed.

(** On an expression without beta-redex [simp_value] has nothing to do. *)
Lemma simp_value_no_redex_safe n : forall e,
  contains_redex e = false ->
  simp_value n e = OutOfFuel \/ simp_value n e = Normal e.
Proof.
  induction n as [|n IH]; intros e He; [left; reflexivity|].
  destruct e as [h t|h t|f v|x| |i|x t|]; try (right; reflexivity).
  - simpl in He. apply orb_false_iff in He as [Hh Ht].
    rewrite simp_value_pi.
    destruct (IH h Hh) as [->| ->]; [left; reflexivity|].
    destruct (IH t Ht) as [->| ->]; [left|right]; reflexivity.
  - simpl in He. apply orb_false_iff in He as [Hh Ht].
    rewrite simp_value_lambda.
    destruct (IH h Hh) as [->| ->]; [left; reflexivity|].
    destruct (IH t Ht) as [->| ->]; [left|right]; reflexivity.
  - assert (Hf : forall head tail, f <> Lambda head tail).
    { intros head tail ->. discriminate. }
    assert (Hc : contains_redex f || contains_redex v = false).
    { destruct f; try discriminate; exact He. }
    apply orb_false_iff in Hc as [Hcf Hcv].
    rewrite simp_value_application by exact Hf.
    destruct (IH f Hcf) as [->| ->]; [left; reflexivity|].
    destruct (IH v Hcv) as [->| ->]; [left|right]; reflexivity.
Qed.

Lemma simp_value_no_redex_returns e :
  contains_redex e = false -> exists n, simp_value n e = Normal e.
Proof.
  induction e as [h IHh t IHt|h IHh t IHt|f IHf v IHv|x| |i|x t IHt|];
    intros He; try (exists 1%nat; reflexivity).
  - simpl in He. apply orb_false_iff in He as [Hh Ht].
    destruct (IHh Hh) as [n1 H1]. destruct (IHt Ht) as [n2 H2].
    exists (S (Nat.max n1 n2)). rewrite simp_value_pi.
    rewrite (simp_value_fuel_le n1) by (try lia; rewrite H1; discriminate).
    rewrite H1. simpl.
    rewrite (simp_value_fuel_le n2) by (try lia; rewrite H2; discriminate).
    rewrite H2. reflexivity.
  - simpl in He. apply orb_false_iff in He as [Hh Ht].
    destruct (IHh Hh) as [n1 H1]. destruct (IHt Ht) as [n2 H2].
    exists (S (Nat.max n1 n2)). rewrite simp_value_lambda.
    rewrite (simp_value_fuel_le n1) by (try lia; rewrite H1; discriminate).
    rewrite H1. simpl.
    rewrite (simp_value_fuel_le n2) by (try lia; rewrite H2; discriminate).
    rewrite H2. reflexivity.
  - assert (Hf : forall head tail, f <> Lambda head tail).
    { intros head tail ->. discriminate. }
    assert (Hc : contains_redex f || contains_redex v = false).
    { destruct f; try discriminate; exact He. }
    apply orb_false_iff in Hc as [Hcf Hcv].
    destruct (IHf Hcf) as [n1 H1]. destruct (IHv Hcv) as [n2 H2].
    exists (S (Nat.max n1 n2)). rewrite simp_value_application by exact Hf.
    rewrite (simp_value_fuel_le n1) by (try lia; rewrite H1; discriminate).
    rewrite H1. simpl.
    rewrite (simp_value_fuel_le n2) by (try lia; rewrite H2; discriminate).
    rewrite H2. reflexivity.
Qed.

(** A redex whose body holds a [Lambda]: the argument is simplified first,
    and whatever it gives the redex yields no value. *)
Lemma simp_value_redex_lambda_body n head tail value :
  contains_lambda tail = true ->
  (simp_value n value = OutOfFuel
   /\ simp_value (S n) (Application (Lambda head tail) value) = OutOfFuel)
  \/ throws (simp_value (S n) (Application (Lambda head tail) value)).
Proof.
  intros Hl. rewrite simp_value_redex.
  destruct (simp_value n value) as [arg|msg|]; simpl.
  - right. apply bind_throws. apply replace_lambda_throws. exact Hl.
  - right. eexists; reflexivity.
  - left. split; reflexivity.
Qed.

Lemma simp_value_redex_never_returns n head tail value :
  contains_lambda tail = true ->
  ~ returns (simp_value n (Application (Lambda head tail) value)).
Proof.
  intros Hl [r Hr]. destruct n as [|n]; [discriminate|].
  destruct (simp_value_redex_lambda_body n head tail value Hl)
    as [[_ H]|[msg H]]; congruence.
Qed.

(** The self-application loops: no fuel is enough. *)
Lemma simp_value_self_apply n :
  simp_value n self_apply = OutOfFuel
  \/ simp_value n self_apply = Normal self_apply.
Proof.
  apply simp_value_no_redex_safe. reflexivity.
Qed.

Lemma simp_value_omega n : simp_value n omega = OutOfFuel.
Proof.
  induction n as [|n IH]; [reflexivity|].
  unfold omega, self_apply at 1. rewrite simp_value_redex.
  destruct (simp_value_self_apply n) as [->| ->]; [reflexivity|].
  simpl. exact IH.
Qed.

(** ** The checker on references *)

Lemma type_of_ref fuel defs i refs :
  type_of fuel defs (Ref i) refs =
  match refs_at refs i with
  | Some r => Normal (update_refs r i)
  | None => Normal (Ref i)
  end.
Proof. reflexivity. Qed.

(** [refs_at] reads the stack from its top: index [1] is the last entry. *)
Lemma refs_at_from_top refs i :
  1 <= i -> refs_at refs i = reverse refs !! Z.to_nat (i - 1).
Proof.
  intros Hi. unfold refs_at.
  destruct (Z.leb_spec 0 (Z.of_nat (length refs) - i)) as [Hle|Hgt].
  - rewrite reverse_lookup by lia. f_equal. lia.
  - symmetry. apply lookup_ge_None. rewrite length_reverse. lia.
Qed.

Lemma refs_at_above refs i :
  Z.of_nat (length refs) < i -> refs_at refs i = None.
Proof.
  intros Hi. unfold refs_at.
  destruct (Z.leb_spec 0 (Z.of_nat (length refs) - i)); [lia|reflexivity].
Qed.

(** ** The claims on the kernel and on references *)

(** C1 (substitution rules).  The rules for [Ref] above and below the
    depth, for [Application], [Pi] and [Ident] are those of [replace]
    (lemmas [replace_ref_gt], [replace_ref_lt], [replace_application],
    [replace_pi], [replace_ident]).  The rule for a [Ref] at the depth
    promises the value with every [Ref] index raised by [i - 1]; [replace]
    hands the value to [update_refs], which does not enter a [Lambda], so a
    [Lambda] value is put in as it is at every depth.  At depth 2 the value
    [A => \2] comes back unchanged where the rule gives [A => \3], and the
    same holds for the [Ref] met under a [Pi] from depth 1. *)
Theorem replace_ref_at_depth_keeps_lambda_refs :
  (forall head tail depth,
     replace (Ref depth) (Lambda head tail) depth = Normal (Lambda head tail))
  /\ replace (Ref 2) (Lambda (Ident "A") (Ref 2)) 2
     = Normal (Lambda (Ident "A") (Ref 2))
  /\ replace (Pi (Ident "B") (Ref 2)) (Lambda (Ident "A") (Ref 2)) 1
     = Normal (Pi (Ident "B") (Lambda (Ident "A") (Ref 2)))
  /\ shift (Lambda (Ident "A") (Ref 2)) (2 - 1) = Lambda (Ident "A") (Ref 3)
  /\ replace (Ref 2) (Lambda (Ident "A") (Ref 2)) 2
     <> Normal (shift (Lambda (Ident "A") (Ref 2)) (2 - 1)).
Proof.
  split.
  { intros head tail depth. rewrite replace_ref_eq. reflexivity. }
  repeat split. discriminate.
Qed.

(** C2, as stated, fails: the entry [A -> \1] has no free reference, so
    lifting its free references leaves it alone, yet [type_of] returns
    [A -> \2]. *)
Lemma type_of_ref_lifts_bound_refs :
  type_of 0 initial_defs (Ref 1) [Pi (Ident "A") (Ref 1)]
    = Normal (Pi (Ident "A") (Ref 2))
  /\ shift_free 0 (Pi (Ident "A") (Ref 1)) 1 = Pi (Ident "A") (Ref 1)
  /\ type_of 0 initial_defs (Ref 1) [Pi (Ident "A") (Ref 1)]
     <> Normal (shift_free 0 (Pi (Ident "A") (Ref 1)) 1).
Proof. repeat split. discriminate. Qed.

(** C2 (amended).  For [1 <= i <= length refs], [type_of] on [Ref i]
    returns the [i]-th entry from the top of [refs] with the index of every
    [Ref] in it, bound or free, raised by [i]; this for an entry without
    [Lambda] node. *)
Theorem type_of_ref_in_range fuel defs refs i entry :
  1 <= i <= Z.of_nat (length refs) ->
  reverse refs !! Z.to_nat (i - 1) = Some entry ->
  contains_lambda entry = false ->
  type_of fuel defs (Ref i) refs = Normal (shift entry i).
Proof.
  intros [Hi _] Hentry Hl.
  rewrite type_of_ref, refs_at_from_top, Hentry by exact Hi.
  rewrite update_refs_shift by exact Hl. reflexivity.
Qed.

Lemma type_of_ref_in_range_witness :
  type_of 0 initial_defs (Ref 2) [Pi (Ident "A") (Ref 1); Ident "B"]
  = Normal (Pi (Ident "A") (Ref 3)).
Proof.
  apply (type_of_ref_in_range 0 initial_defs
           [Pi (Ident "A") (Ref 1); Ident "B"] 2 (Pi (Ident "A") (Ref 1)));
    [simpl; lia|reflexivity|reflexivity].
Defined.

(** C3 (index shifting).  [update_refs] has no case for [Lambda] and
    returns every such node unchanged: neither the head nor the body of
    [\1 => \2] is shifted, where adding 1 to every [Ref] gives [\2 => \3].
    Through [Application] and [Pi] it does shift every [Ref], with no
    adjustment for depth ([update_refs_shift]). *)
Theorem update_refs_skips_lambda :
  (forall head tail inc, update_refs (Lambda head tail) inc = Lambda head tail)
  /\ update_refs (Application (Ident "P") (Lambda (Ref 1) (Ref 2))) 1
     = Application (Ident "P") (Lambda (Ref 1) (Ref 2))
  /\ shift (Lambda (Ref 1) (Ref 2)) 1 = Lambda (Ref 2) (Ref 3)
  /\ update_refs (Lambda (Ref 1) (Ref 2)) 1 <> shift (Lambda (Ref 1) (Ref 2)) 1.
Proof.
  split; [exact update_refs_lambda|].
  repeat split. discriminate.
Qed.

(** C4, as stated, fails.  In [((T => \1) (A => \1)) x] the function
    position is not a [Lambda] when [simp_value] looks at it; it becomes
    one, and the result [(A => \1) x] is a redex which a second run
    contracts to [x]. *)
Lemma simp_value_not_idempotent :
  simp_value 4
    (Application
       (Application (Lambda (Ident "T") (Ref 1)) (Lambda (Ident "A") (Ref 1)))
       (Ident "x"))
  = Normal (Application (Lambda (Ident "A") (Ref 1)) (Ident "x"))
  /\ simp_value 3 (Application (Lambda (Ident "A") (Ref 1)) (Ident "x"))
     = Normal (Ident "x")
  /\ forall n,
       simp_value n (Application (Lambda (Ident "A") (Ref 1)) (Ident "x"))
       <> Normal (Application (Lambda (Ident "A") (Ref 1)) (Ident "x")).
Proof.
  split; [reflexivity|]. split; [reflexivity|].
  intros n H.
  assert (H3 : simp_value 3 (Application (Lambda (Ident "A") (Ref 1)) (Ident "x"))
               = Normal (Ident "x")) by reflexivity.
  pose proof (simp_value_deterministic _ _ _ _ _ H H3). discriminate.
Qed.

(** C4 (amended).  When [simp_value] returns [e'] and [e'] holds no
    beta-redex, a second run returns [e'] again: with enough fuel it
    returns, and whatever the fuel it returns nothing else. *)
Theorem simp_value_idempotent_on_normal_forms n e e' :
  simp_value n e = Normal e' ->
  contains_redex e' = false ->
  (exists m, simp_value m e' = Normal e')
  /\ forall m r, simp_value m e' = Normal r -> r = e'.
Proof.
  intros _ He'. split.
  - apply simp_value_no_redex_returns. exact He'.
  - intros m r Hr.
    destruct (simp_value_no_redex_safe m e' He') as [H|H]; congruence.
Qed.

Lemma simp_value_idempotent_on_normal_forms_witness :
  (exists m, simp_value m (Pi (Ident "Nat") (Ident "Nat"))
             = Normal (Pi (Ident "Nat") (Ident "Nat")))
  /\ forall m r, simp_value m (Pi (Ident "Nat") (Ident "Nat")) = Normal r ->
                 r = Pi (Ident "Nat") (Ident "Nat").
Proof.
  apply (simp_value_idempotent_on_normal_forms 4
           (Application (Lambda (Ident "Type") (Pi (Ref 1) (Ref 2)))
              (Ident "Nat"))
           (Pi (Ident "Nat") (Ident "Nat")));
    reflexivity.
Defined.

(** C9, as stated, fails on one point: [simp_value] simplifies the
    argument before it substitutes, and when that loops the redex loops
    with it instead of throwing. *)
Lemma simp_value_redex_may_loop :
  contains_lambda (Lambda (Ident "T") (Ref 1)) = true
  /\ forall n,
       simp_value n
         (Application (Lambda (Ident "T") (Lambda (Ident "T") (Ref 1))) omega)
       = OutOfFuel.
Proof.
  split; [reflexivity|].
  intros [|n]; [reflexivity|].
  rewrite simp_value_redex, simp_value_omega. reflexivity.
Qed.

(** C9 (amended).  [replace] throws on every [tail] that holds a [Lambda]
    node, whatever the value and the depth.  A redex whose body holds a
    [Lambda] therefore never yields a value, and it throws as soon as the
    simplification of its argument comes to an end. *)
Theorem replace_throws_on_lambda tail value depth head arg :
  contains_lambda tail = true ->
  throws (replace tail value depth)
  /\ (forall n, ~ returns (simp_value n (Application (Lambda head tail) arg)))
  /\ (forall n, simp_value n arg <> OutOfFuel ->
                throws (simp_value (S n) (Application (Lambda head tail) arg))).
Proof.
  intros Hl. split; [|split].
  - apply replace_lambda_throws. exact Hl.
  - intros n. apply simp_value_redex_never_returns. exact Hl.
  - intros n Hn.
    destruct (simp_value_redex_lambda_body n head tail arg Hl) as [[H _]|H];
      [contradiction|exact H].
Qed.

Lemma replace_throws_on_lambda_witness :
  throws (replace (Pi (Ident "A") (Lambda (Ref 1) (Ref 1))) (Ident "x") 1)
  /\ (forall n, ~ returns
        (simp_value n
           (Application
              (Lambda (Ident "T") (Pi (Ident "A") (Lambda (Ref 1) (Ref 1))))
              (Ident "x"))))
  /\ (forall n, simp_value n (Ident "x") <> OutOfFuel ->
        throws
          (simp_value (S n)
             (Application
                (Lambda (Ident "T") (Pi (Ident "A") (Lambda (Ref 1) (Ref 1))))
                (Ident "x")))).
Proof.
  apply (replace_throws_on_lambda
           (Pi (Ident "A") (Lambda (Ref 1) (Ref 1))) (Ident "x") 1
           (Ident "T") (Ident "x")).
  reflexivity.
Defined.

(** C10.  A [Ref] whose index is above the height of the stack is its own
    type: [type_of] returns it unchanged and does not throw. *)
Theorem type_of_ref_above_stack fuel defs i refs :
  Z.of_nat (length refs) < i ->
  type_of fuel defs (Ref i) refs = Normal (Ref i).
Proof.
  intros Hi. rewrite type_of_ref, refs_at_above by exact Hi. reflexivity.
Qed.

Lemma type_of_ref_above_stack_witness :
  type_of 0 initial_defs (Ref 3) [Ident "A"; Ident "B"] = Normal (Ref 3).
Proof.
  apply (type_of_ref_above_stack 0 initial_defs 3 [Ident "A"; Ident "B"]).
  simpl. lia.
Defined.

(** ** Programs with output *)

Lemma io_bind_normal {A B : Type} (m : io A) (k : A -> io B) out b :
  io_bind m k = (out, Normal b) ->
  exists out1 a out2,
    m = (out1, Normal a) /\ k a = (out2, Normal b) /\ out = out1 ++ out2.
Proof.
  destruct m as [out1 [a|msg|]]; simpl; try (intros H; discriminate).
  destruct (k a) as [out2 r] eqn:Hk. intros H. injection H as <- ->.
  exists out1, a, out2. auto.
Qed.

Lemma quiet_nil {A : Type} (c : completion A) : quiet ([], c).
Proof. intros path data H. apply elem_of_nil in H. exact H. Qed.

Lemma quiet_console_log v : quiet (console_log v).
Proof.
  intros path data H. apply list_elem_of_singleton in H. discriminate.
Qed.

Lemma quiet_bind {A B : Type} (m : io A) (k : A -> io B) :
  quiet m -> (forall a, quiet (k a)) -> quiet (io_bind m k).
Proof.
  intros Hm Hk path data. destruct m as [out1 [a|msg|]]; simpl.
  - specialize (Hk a path data). specialize (Hm path data).
    destruct (k a) as [out2 r]. simpl in *.
    rewrite elem_of_app. tauto.
  - apply (Hm path data).
  - apply (Hm path data).
Qed.

Ltac quiet_step :=
  first
    [ apply quiet_nil
    | apply quiet_console_log
    | match goal with H : _ |- quiet _ => apply H end
    | apply quiet_bind; [|intros ?]
    | match goal with
      | |- quiet (let (_, _) := ?p in _) => destruct p
      | |- quiet (match ?x with _ => _ end) => destruct x
      | |- quiet (if ?b then _ else _) => destruct b
      end ].

Ltac quiet_tac := unfold ret, throw, lift; repeat quiet_step.

Lemma quiet_lex text start : quiet (lex text start).
Proof. unfold lex. quiet_tac. Qed.

Lemma quiet_expect_token tokens cursor t : quiet (expect_token tokens cursor t).
Proof. unfold expect_token. quiet_tac. Qed.

Lemma quiet_tokenize fuel : forall text start tokens,
  quiet (tokenize fuel text start tokens).
Proof.
  induction fuel as [|fuel IH]; intros text start tokens; simpl.
  - quiet_tac.
  - destruct (length text <=? start)%nat; [quiet_tac|].
    apply quiet_bind; [apply quiet_lex|].
    intros [token start']. destruct token; apply IH.
Qed.

Lemma quiet_parser fuel :
  (forall tokens cursor, quiet (parse_atom fuel tokens cursor))
  /\ (forall tokens cursor, quiet (parse_expression fuel tokens cursor))
  /\ (forall tokens cursor tail ops,
        quiet (parse_tail fuel tokens cursor tail ops)).
Proof.
  pose proof quiet_expect_token as Hexpect.
  induction fuel as [|fuel (IHa & IHe & IHt)];
    repeat split; intros; simpl; quiet_tac.
Qed.

Lemma quiet_parse_statement fuel tokens cursor :
  quiet (parse_statement fuel tokens cursor).
Proof.
  pose proof quiet_expect_token as Hexpect.
  destruct (quiet_parser fuel) as (_ & He & _).
  unfold parse_statement. quiet_tac.
Qed.

Lemma quiet_parse_statements fuel tokens : forall cursor stmts,
  quiet (parse_statements fuel tokens cursor stmts).
Proof.
  pose proof quiet_parse_statement as Hstmt.
  induction fuel as [|fuel IH]; intros cursor stmts; simpl; quiet_tac.
Qed.

Lemma quiet_parse text : quiet (parse text).
Proof.
  unfold parse. apply quiet_bind; [apply quiet_tokenize|].
  intros tokens. apply quiet_parse_statements.
Qed.

Lemma quiet_check_stmt fuel defs stmt : quiet (check_stmt fuel defs stmt).
Proof. unfold check_stmt. quiet_tac. Qed.

Lemma quiet_driver fuel ast : forall defs, quiet (driver fuel ast defs).
Proof.
  pose proof quiet_check_stmt as Hcheck.
  induction ast as [|stmt rest IH]; intros defs; simpl; quiet_tac.
Qed.

(** [index.ts] never writes a file. *)
Lemma quiet_main fuel text : quiet (main fuel text).
Proof.
  unfold main. apply quiet_bind; [apply quiet_parse|].
  intros ast. apply quiet_driver.
Qed.

(** ** The lexer and the parser stop *)

Lemma star_loop_suffix step n :
  (forall s k rest, step s k = Some rest ->
     exists s', k s' = Some rest /\ (length s' <= length s)%nat) ->
  forall s k rest, star_loop step n s k = Some rest ->
     exists s', k s' = Some rest /\ (length s' <= length s)%nat.
Proof.
  intros Hstep. induction n as [|n IH]; intros s k rest H; simpl in H.
  - exists s. auto.
  - destruct (step s _) as [r|] eqn:Hs.
    + injection H as ->. apply Hstep in Hs as (s1 & Hk & Hle).
      destruct (length s1 <? length s)%nat; [|discriminate].
      apply IH in Hk as (s' & Hk & Hle'). exists s'. split; [exact Hk|lia].
    + exists s. auto.
Qed.

Lemma rmatch_suffix r : forall s k rest,
  rmatch r s k = Some rest ->
  exists s', k s' = Some rest
    /\ (length s' <= length s)%nat
    /\ (consumes r = true -> (length s' < length s)%nat).
Proof.
  induction r as [neg chars ranges|r1 IH1 r2 IH2|r1 IH1 r2 IH2|r IH];
    intros s k rest H; simpl in H.
  - destruct s as [|c s']; [discriminate|].
    destruct (class_matches neg chars ranges c); [|discriminate].
    exists s'. simpl. split; [exact H|]. split; intros; lia.
  - apply IH1 in H as (s1 & H & Hle1 & Hlt1).
    apply IH2 in H as (s2 & H & Hle2 & Hlt2).
    exists s2. split; [exact H|]. split; [lia|].
    simpl. intros Hc. apply orb_true_iff in Hc as [Hc|Hc];
      [specialize (Hlt1 Hc)|specialize (Hlt2 Hc)]; lia.
  - destruct (rmatch r1 s k) as [x|] eqn:H1.
    + injection H as ->. apply IH1 in H1 as (s1 & H & Hle & Hlt).
      exists s1. split; [exact H|]. split; [lia|].
      simpl. intros Hc. apply andb_true_iff in Hc as [Hc _]. auto.
    + apply IH2 in H as (s1 & H & Hle & Hlt).
      exists s1. split; [exact H|]. split; [lia|].
      simpl. intros Hc. apply andb_true_iff in Hc as [_ Hc]. auto.
  - apply star_loop_suffix in H as (s' & H & Hle).
    + exists s'. split; [exact H|]. split; [exact Hle|discriminate].
    + intros s0 k0 rest0 H0. apply IH in H0 as (s1 & H1 & Hle1 & _). eauto.
Qed.

Lemma exec_sticky_nonempty r text start m :
  consumes r = true -> exec_sticky r text start = Some m ->
  (0 < length m)%nat.
Proof.
  intros Hc. unfold exec_sticky.
  destruct (length text <? start)%nat; [discriminate|].
  destruct (rmatch r (drop start text) Some) as [rest|] eqn:H; [|discriminate].
  intros Hm. injection Hm as <-.
  apply rmatch_suffix in H as (s' & Hs & Hle & Hlt).
  injection Hs as ->. specialize (Hlt Hc).
  rewrite length_take. lia.
Qed.

Lemma finishes_bind {A B : Type} (m : io A) (k : A -> io B) :
  finishes m ->
  (forall out a, m = (out, Normal a) -> finishes (k a)) ->
  finishes (io_bind m k).
Proof.
  unfold finishes. destruct m as [out [a|msg|]]; simpl; intros Hm Hk.
  - specialize (Hk out a eq_refl). destruct (k a) as [out' r]. exact Hk.
  - discriminate.
  - congruence.
Qed.

Lemma lex_finishes text start : finishes (lex text start).
Proof.
  unfold lex, finishes.
  repeat match goal with
         | |- context [match ?x with Some _ => _ | None => _ end] => destruct x
         end; simpl; discriminate.
Qed.

Lemma lex_advances text start out token start' :
  lex text start = (out, Normal (token, start')) -> (start < start')%nat.
Proof.
  unfold lex.
  destruct (exec_sticky ident_regex text start) as [m|] eqn:H1.
  { intros H. injection H as _ _ <-.
    apply exec_sticky_nonempty in H1; [lia|reflexivity]. }
  destruct (exec_sticky ws_regex text start) as [m|] eqn:H2.
  { intros H. injection H as _ _ <-.
    apply exec_sticky_nonempty in H2; [lia|reflexivity]. }
  destruct (exec_sticky line_cmt_regex text start) as [m|] eqn:H3.
  { intros H. injection H as _ _ <-.
    apply exec_sticky_nonempty in H3; [lia|reflexivity]. }
  destruct (exec_sticky block_cmt_regex text start) as [m|] eqn:H4.
  { intros H. injection H as _ _ <-.
    apply exec_sticky_nonempty in H4; [lia|reflexivity]. }
  destruct (List.find _ ops) as [op|]; [|discriminate].
  intros H. injection H as _ _ <-. destruct op; simpl; lia.
Qed.

Lemma tokenize_finishes fuel : forall text start tokens,
  (length text - start <= fuel)%nat ->
  finishes (tokenize fuel text start tokens).
Proof.
  induction fuel as [|fuel IH]; intros text start tokens Hf; simpl.
  - destruct (Nat.leb_spec (length text) start); [discriminate|lia].
  - destruct (Nat.leb_spec (length text) start); [discriminate|].
    apply finishes_bind; [apply lex_finishes|].
    intros out [token start'] Hl. apply lex_advances in Hl.
    destruct token; apply IH; lia.
Qed.

Lemma expect_token_finishes tokens cursor t :
  finishes (expect_token tokens cursor t).
Proof.
  unfold expect_token, finishes.
  destruct (tokens !! cursor); [|discriminate].
  destruct (bool_decide _); discriminate.
Qed.

Lemma expect_token_normal tokens cursor t out token cursor' :
  expect_token tokens cursor t = (out, Normal (token, cursor')) ->
  cursor' = S cursor /\ (cursor < length tokens)%nat.
Proof.
  unfold expect_token.
  destruct (tokens !! cursor) eqn:Hl; [|discriminate].
  apply lookup_lt_Some in Hl.
  destruct (bool_decide _); [|discriminate].
  intros H. injection H as _ _ <-. auto.
Qed.

Lemma peek_is_lt tokens cursor t :
  peek_is tokens cursor t = true -> (cursor < length tokens)%nat.
Proof.
  unfold peek_is, peek_token.
  destruct (tokens !! cursor) eqn:Hl; [|discriminate].
  intros _. apply lookup_lt_Some in Hl. exact Hl.
Qed.

Tactic Notation "io_inv" hyp(H) "as" simple_intropattern(a) ident(Ha) :=
  apply io_bind_normal in H as (? & a & ? & Ha & H & _);
  cbv beta iota in H.

(** Every successful call of the parser moves the cursor forward. *)
Lemma parser_advances fuel :
  (forall tokens cursor out e cursor',
     parse_atom fuel tokens cursor = (out, Normal (e, cursor')) ->
     (cursor < cursor')%nat)
  /\ (forall tokens cursor out e cursor',
        parse_expression fuel tokens cursor = (out, Normal (e, cursor')) ->
        (cursor < cursor')%nat)
  /\ (forall tokens cursor tail ops out r cursor',
        parse_tail fuel tokens cursor tail ops = (out, Normal (r, cursor')) ->
        (cursor <= cursor')%nat).
Proof.
  induction fuel as [|fuel (IHa & IHe & IHt)].
  - repeat split; intros; discriminate.
  - repeat split.
    + intros tokens cursor out e cursor' H. simpl in H.
      destruct (peek_is tokens cursor (TyPunct LParen)).
      * io_inv H as [tok c1] H1.
        apply expect_token_normal in H1 as [-> _].
        io_inv H as [res c2] H2.
        io_inv H as [tok' c3] H3.
        apply expect_token_normal in H3 as [-> _].
        injection H as _ _ <-.
        destruct (_ && _).
        -- io_inv H2 as [nm c4] H4.
           apply expect_token_normal in H4 as [-> _].
           io_inv H2 as [col c5] H5.
           apply expect_token_normal in H5 as [-> _].
           io_inv H2 as [ex c6] H6.
           apply IHe in H6. injection H2 as _ _ <-. lia.
        -- apply IHe in H2. lia.
      * destruct (peek_is tokens cursor TyIdent); [|discriminate].
        io_inv H as [tok c1] H1.
        apply expect_token_normal in H1 as [-> _].
        injection H as _ _ <-. lia.
    + intros tokens cursor out e cursor' H. simpl in H.
      io_inv H as [ex c1] H1. apply IHa in H1.
      io_inv H as [[tl op] c2] H2. apply IHt in H2.
      injection H as _ _ <-. lia.
    + intros tokens cursor tail ops out r cursor' H. simpl in H.
      destruct (_ || _).
      * io_inv H as [at1 c1] H1. apply IHa in H1.
        apply IHt in H. lia.
      * destruct (peek_is tokens cursor (TyPunct FatArrow)).
        -- io_inv H as [tok c1] H1.
           apply expect_token_normal in H1 as [-> _].
           io_inv H as [at1 c2] H2. apply IHa in H2.
           apply IHt in H. lia.
        -- destruct (peek_is tokens cursor (TyPunct Arrow)).
           ++ io_inv H as [tok c1] H1.
              apply expect_token_normal in H1 as [-> _].
              io_inv H as [at1 c2] H2. apply IHa in H2.
              apply IHt in H. lia.
           ++ injection H as _ _ <-. lia.
Qed.

Lemma parse_atom_in_range fuel tokens cursor out r :
  parse_atom fuel tokens cursor = (out, Normal r) ->
  (cursor < length tokens)%nat.
Proof.
  destruct fuel as [|fuel]; [discriminate|]. simpl.
  destruct (peek_is tokens cursor (TyPunct LParen)) eqn:Hp;
    [intros _; eapply peek_is_lt; exact Hp|].
  destruct (peek_is tokens cursor TyIdent) eqn:Hi; [|discriminate].
  intros _. eapply peek_is_lt; exact Hi.
Qed.

Ltac finishes_expect :=
  apply finishes_bind; [apply expect_token_finishes|];
  let o := fresh "o" in let tok := fresh "tok" in
  let c := fresh "c" in let H := fresh "H" in
  intros o [tok c] H; apply expect_token_normal in H as [-> ?].

(** The parser stops: twice the number of tokens left, and two more, is
    fuel enough. *)
Lemma parser_finishes fuel :
  (forall tokens cursor,
     (2 * (length tokens - cursor) + 1 <= fuel)%nat ->
     finishes (parse_atom fuel tokens cursor))
  /\ (forall tokens cursor,
        (2 * (length tokens - cursor) + 2 <= fuel)%nat ->
        finishes (parse_expression fuel tokens cursor))
  /\ (forall tokens cursor tail ops,
        (2 * (length tokens - cursor) + 2 <= fuel)%nat ->
        finishes (parse_tail fuel tokens cursor tail ops)).
Proof.
  induction fuel as [|fuel (IHa & IHe & IHt)].
  - repeat split; intros; lia.
  - destruct (parser_advances fuel) as (Aa & Ae & At).
    repeat split.
    + intros tokens cursor Hf. simpl.
      destruct (peek_is tokens cursor (TyPunct LParen)) eqn:Hp.
      * apply peek_is_lt in Hp. finishes_expect.
        apply finishes_bind.
        -- destruct (_ && _).
           ++ finishes_expect. finishes_expect.
              apply finishes_bind; [apply IHe; lia|].
              intros o2 [ex c2] _. discriminate.
           ++ apply IHe. lia.
        -- intros o2 [res c2] _. finishes_expect. discriminate.
      * destruct (peek_is tokens cursor TyIdent); [|discriminate].
        finishes_expect. discriminate.
    + intros tokens cursor Hf. simpl.
      apply finishes_bind; [apply IHa; lia|].
      intros o [ex c1] H1.
      pose proof (parse_atom_in_range _ _ _ _ _ H1). apply Aa in H1.
      apply finishes_bind; [apply IHt; lia|].
      intros o2 [[tl op] c2] _. discriminate.
    + intros tokens cursor tail ops Hf. simpl.
      destruct (_ || _) eqn:Hor.
      * assert (cursor < length tokens)%nat
          by (apply orb_true_iff in Hor as [Hp|Hp];
              eapply peek_is_lt; exact Hp).
        apply finishes_bind; [apply IHa; lia|].
        intros o [at1 c1] H1. apply Aa in H1. apply IHt. lia.
      * destruct (peek_is tokens cursor (TyPunct FatArrow)) eqn:Hp.
        -- apply peek_is_lt in Hp. finishes_expect.
           apply finishes_bind; [apply IHa; lia|].
           intros o2 [at1 c2] H2. apply Aa in H2. apply IHt. lia.
        -- destruct (peek_is tokens cursor (TyPunct Arrow)) eqn:Hp'.
           ++ apply peek_is_lt in Hp'. finishes_expect.
              apply finishes_bind; [apply IHa; lia|].
              intros o2 [at1 c2] H2. apply Aa in H2. apply IHt. lia.
           ++ discriminate.
Qed.

Lemma parse_statement_advances fuel tokens cursor out stmt cursor' :
  parse_statement fuel tokens cursor = (out, Normal (stmt, cursor')) ->
  (cursor < cursor')%nat.
Proof.
  destruct (parser_advances fuel) as (_ & Ae & _).
  unfold parse_statement. intros H.
  io_inv H as [tok c1] H1. apply expect_token_normal in H1 as [-> _].
  io_inv H as [tok2 c2] H2. apply expect_token_normal in H2 as [-> _].
  io_inv H as [t c3] H3. apply Ae in H3.
  io_inv H as [d c4] H4.
  io_inv H as [tok5 c5] H5. apply expect_token_normal in H5 as [-> _].
  injection H as _ <-.
  destruct (peek_is tokens c3 (TyPunct ColonEq)).
  - io_inv H4 as [tok6 c6] H6. apply expect_token_normal in H6 as [-> _].
    io_inv H4 as [b c7] H7. apply Ae in H7.
    injection H4 as _ <-. lia.
  - injection H4 as _ <-. lia.
Qed.

Lemma parse_statement_finishes fuel tokens cursor :
  (2 * (length tokens - cursor) + 2 <= fuel)%nat ->
  finishes (parse_statement fuel tokens cursor).
Proof.
  intros Hf. destruct (parser_finishes fuel) as (_ & He & _).
  destruct (parser_advances fuel) as (_ & Ae & _).
  unfold parse_statement.
  finishes_expect. finishes_expect.
  apply finishes_bind; [apply He; lia|].
  intros o1 [t c1] H1. apply Ae in H1.
  apply finishes_bind.
  - destruct (peek_is tokens c1 (TyPunct ColonEq)) eqn:Hp; [|discriminate].
    finishes_expect.
    apply finishes_bind; [apply He; lia|].
    intros o3 [b c3] _. discriminate.
  - intros o2 [d c2] _. finishes_expect. discriminate.
Qed.

Lemma parse_statements_finishes fuel tokens : forall cursor stmts,
  (2 * (length tokens - cursor) + 2 <= fuel)%nat ->
  finishes (parse_statements fuel tokens cursor stmts).
Proof.
  induction fuel as [|fuel IH]; intros cursor stmts Hf; [lia|]. simpl.
  destruct (Nat.leb_spec (length tokens) cursor); [discriminate|].
  apply finishes_bind; [apply parse_statement_finishes; lia|].
  intros o [stmt c1] H1. apply parse_statement_advances in H1.
  apply IH. lia.
Qed.

(** [parse] never runs out of fuel: it returns or it throws. *)
Lemma parse_finishes text : finishes (parse text).
Proof.
  unfold parse. apply finishes_bind.
  - apply tokenize_finishes. lia.
  - intros o tokens _. apply parse_statements_finishes. lia.
Qed.

(** ** The driver *)

Lemma check_stmt_normal fuel defs stmt out defs' :
  check_stmt fuel defs stmt = (out, Normal defs') ->
  exists t d,
    rename defs (stmt_ty stmt) [] = Normal t
    /\ defs' = <[stmt_ident stmt := mkDef t d]> defs.
Proof.
  unfold check_stmt. intros H.
  apply io_bind_normal in H as (o1 & t & o2 & Ht & H & _).
  apply io_bind_normal in H as (o3 & d & o4 & _ & H & _).
  apply io_bind_normal in H as (o5 & u & o6 & _ & H & _).
  injection Ht as _ Ht. injection H as _ H.
  exists t, d. auto.
Qed.

(** Checking other declarations leaves the entry of [name] alone. *)
Lemma driver_lookup_other fuel name ast : forall defs out defs',
  driver fuel ast defs = (out, Normal defs') ->
  Forall (fun stmt => stmt_ident stmt <> name) ast ->
  defs' !! name = defs !! name.
Proof.
  induction ast as [|stmt rest IH]; intros defs out defs' H Hall; simpl in H.
  - injection H as _ H. congruence.
  - apply io_bind_normal in H as (o1 & defs1 & o2 & Hc & Hd & _).
    apply Forall_cons in Hall as [Hne Hall].
    rewrite (IH _ _ _ Hd Hall).
    apply check_stmt_normal in Hc as (t & d & _ & ->).
    apply lookup_insert_ne. exact Hne.
Qed.

Lemma type_of_ident fuel defs name refs :
  type_of fuel defs (Ident name) refs =
  match defs !! name with
  | None => Throw (name +:+ " not defined")
  | Some d => Normal (ty d)
  end.
Proof. reflexivity. Qed.

(** C5, as stated, fails on the body: what the environment keeps for
    [zero] is the application [SORRY Nat], not the identifier [Nat]. *)
Lemma sorry_body_is_not_reduced :
  exists defs,
    outcome (main 0 "Nat : Type; zero : Nat := SORRY Nat;") = Normal defs
    /\ (defs !! "zero" ≫= def)
       = Some (Application (Ident "SORRY") (Ident "Nat"))
    /\ (defs !! "zero" ≫= def) <> Some (Ident "Nat").
Proof.
  exists (<["zero" := mkDef (Ident "Nat")
                       (Some (Application (Ident "SORRY") (Ident "Nat")))]>
            (<["Nat" := mkDef (Ident "Type") None]> initial_defs)).
  split; [vm_compute; reflexivity|].
  split; [vm_compute; reflexivity|vm_compute; discriminate].
Qed.

(** C5 (amended).  The two declarations are accepted and the check of
    [zero] passes, whatever the fuel: the type found for [SORRY Nat] is
    [Nat].  The environment then has [zero] with type [Nat] and with the
    application [SORRY Nat] as its body: the driver stores the resolved body
    as it is, and [simp_value] has no rule that would turn it into [Nat]. *)
Theorem sorry_escape_passes fuel :
  main fuel "Nat : Type; zero : Nat := SORRY Nat;"
  = ([ConsoleLog (LogString "Proof 'zero' passed")],
     Normal
       (<["zero" := mkDef (Ident "Nat")
                      (Some (Application (Ident "SORRY") (Ident "Nat")))]>
          (<["Nat" := mkDef (Ident "Type") None]> initial_defs)))
  /\ type_of fuel (<["Nat" := mkDef (Ident "Type") None]> initial_defs)
       (Application (Ident "SORRY") (Ident "Nat")) []
     = Normal (Ident "Nat")
  /\ simp_value (S (S fuel)) (Application (Ident "SORRY") (Ident "Nat"))
     = Normal (Application (Ident "SORRY") (Ident "Nat")).
Proof. repeat split; vm_compute; reflexivity. Qed.

(** C6, as stated, fails: a declaration without body is still resolved,
    and resolving the type of [bad : Nat;] throws. *)
Lemma axiom_with_unknown_type_fails :
  main 0 "bad : Nat;" = ([], Throw "Nat not defined")
  /\ check_stmt 0 initial_defs (mkStatement "bad" (Ident "Nat") None)
     = ([], Throw "Nat not defined").
Proof. split; vm_compute; reflexivity. Qed.

(** C6 (amended).  A declaration [name : t;] without body whose type
    resolves, to [t'], is accepted without any check and without output,
    and it binds [name] to [t'] with no body.  From then on [type_of] on the
    identifier [name] returns [t'], the resolver leaves [name] in place
    where no binder hides it, and this lasts through every later
    declaration of another name. *)
Theorem axiom_declaration fuel defs name t t' :
  rename defs t [] = Normal t' ->
  check_stmt fuel defs (mkStatement name t None)
  = ([], Normal (<[name := mkDef t' None]> defs))
  /\ (forall fuel' refs,
        type_of fuel' (<[name := mkDef t' None]> defs) (Ident name) refs
        = Normal t')
  /\ (forall bound,
        bound_index (reverse bound) name 1 = None ->
        rename (<[name := mkDef t' None]> defs) (Ident name) bound
        = Normal (Ident name))
  /\ (forall ast out defs' fuel' refs,
        driver fuel ast (<[name := mkDef t' None]> defs) = (out, Normal defs') ->
        Forall (fun stmt => stmt_ident stmt <> name) ast ->
        type_of fuel' defs' (Ident name) refs = Normal t').
Proof.
  intros Ht. repeat split.
  - unfold check_stmt. simpl. rewrite Ht. reflexivity.
  - intros fuel' refs. rewrite type_of_ident, lookup_insert_eq. reflexivity.
  - intros bound Hb. simpl. rewrite Hb, lookup_insert_eq. reflexivity.
  - intros ast out defs' fuel' refs Hd Hall.
    rewrite type_of_ident, (driver_lookup_other _ _ _ _ _ _ Hd Hall).
    rewrite lookup_insert_eq. reflexivity.
Qed.

Lemma axiom_declaration_witness :
  check_stmt 0 initial_defs (mkStatement "Nat" (Ident "Type") None)
  = ([], Normal (<["Nat" := mkDef (Ident "Type") None]> initial_defs))
  /\ (forall fuel' refs,
        type_of fuel' (<["Nat" := mkDef (Ident "Type") None]> initial_defs)
          (Ident "Nat") refs
        = Normal (Ident "Type")).
Proof.
  destruct (axiom_declaration 0 initial_defs "Nat" (Ident "Type")
              (Ident "Type") eq_refl) as (Hcheck & Htype & _).
  split; [exact Hcheck|exact Htype].
Defined.

(** ** The scenarios of the specification

    The embedding run on the end-to-end scenarios. *)

Example scenario_identity :
  main 0 "id : (T : Type) -> T -> T := (T : Type) => (x : T) => x;"
  = ([ConsoleLog (LogString "Proof 'id' passed")],
     Normal (<["id" := mkDef (Pi (Ident "Type") (Pi (Ref 1) (Ref 2)))
                         (Some (Lambda (Ident "Type") (Lambda (Ref 1) (Ref 1))))]>
               initial_defs)).
Proof. vm_compute. reflexivity. Qed.

Example scenario_dependent_application :
  output
    (main 2 "Nat : Type; zero : Nat; id : (T : Type) -> T -> T := (T : Type) => (x : T) => x; test : Nat := id Nat zero;")
  = [ConsoleLog (LogString "Proof 'id' passed");
     ConsoleLog (LogString "Proof 'test' passed")].
Proof. vm_compute. reflexivity. Qed.

Example scenario_type_mismatch :
  main 2 "Nat : Type; Bool : Type; t : Bool; f : Nat -> Nat := (x : Nat) => x; bad : Nat := f t;"
  = ([ConsoleLog (LogString "Proof 'f' passed")],
     Throw "Type mismatch: t has type Bool, which is not a member of Nat").
Proof. vm_compute. reflexivity. Qed.

Example scenario_shadowing :
  main 0 "id : (T : Type) -> T -> T := (T : Type) => (T : T) => T;"
  = ([ConsoleLog (LogString "Proof 'id' passed")],
     Normal (<["id" := mkDef (Pi (Ident "Type") (Pi (Ref 1) (Ref 2)))
                         (Some (Lambda (Ident "Type") (Lambda (Ref 1) (Ref 1))))]>
               initial_defs)).
Proof. vm_compute. reflexivity. Qed.

(** The body of [test] in the second scenario is a redex under which a
    [Lambda] waits: [simp_value] throws on it. *)
Example simp_value_id_nat_zero :
  simp_value 3
    (Application
       (Application (Lambda (Ident "Type") (Lambda (Ref 1) (Ref 1)))
          (Ident "Nat"))
       (Ident "zero"))
  = Throw "replace: lambda".
Proof. reflexivity. Qed.

(** The lifting of bound references at work: the type found for the
    identity on [(x : A) -> P x] is not the declared one. *)
Example identity_on_pi_rejected :
  main 0 "A : Type; P : A -> Type; t : ((x : A) -> P x) -> (x : A) -> P x := (h : (x : A) -> P x) => h;"
  = ([],
     Throw "Proof 't' failed: ((A -> (P \1)) => \1) has type ((A -> (P \1)) -> (A -> (P \2))), which is not a member of ((A -> (P \1)) -> (A -> (P \1)))").
Proof. vm_compute. reflexivity. Qed.

(** ** The dump *)

Section DraftProperties.

Variable draft_type_of : Defs -> Expr -> completion Expr.
Variable draft_print_expr : Expr -> string.

(** The draft ends every successful run by writing the environment. *)
Lemma draft_main_writes_dump text out :
  draft_main draft_type_of draft_print_expr text = (out, Normal tt) ->
  exists out' defs, out = out' ++ [WriteFile "./dump.json" defs].
Proof.
  unfold draft_main. intros H.
  apply io_bind_normal in H as (o1 & ast & o2 & _ & H & ->).
  apply io_bind_normal in H as (o3 & defs & o4 & _ & H & ->).
  injection H as <-.
  exists (o1 ++ o3), defs. rewrite app_assoc. reflexivity.
Qed.

End DraftProperties.

(** C7 (the dump).  [index.ts] imports [write] and never calls it: on the
    one declaration [Nat : Type;] the run succeeds with no output at all,
    and no run of [index.ts] has a [write] in its output.  The first draft
    of the same driver, whatever its checker, ends this very run by
    writing the environment to [./dump.json]. *)
Theorem main_writes_no_dump :
  main 0 "Nat : Type;"
  = ([], Normal (<["Nat" := mkDef (Ident "Type") None]> initial_defs))
  /\ (forall fuel text path data,
        WriteFile path data ∉ output (main fuel text))
  /\ (forall draft_type_of draft_print_expr,
        draft_main draft_type_of draft_print_expr "Nat : Type;"
        = ([WriteFile "./dump.json"
              (<["Nat" := mkDef (Ident "Type") None]> draft_initial_defs)],
           Normal tt)).
Proof.
  split; [vm_compute; reflexivity|]. split.
  - intros fuel text. apply quiet_main.
  - intros draft_type_of draft_print_expr. vm_compute. reflexivity.
Qed.

(** ** The lexer on block comments *)

(** The pattern is deterministic: it is the scan [block_body]. *)
Lemma class_not c x : class_matches true [x] [] c = negb (Ascii.eqb c x).
Proof. unfold class_matches. simpl. rewrite !orb_false_r. reflexivity. Qed.
Lemma class_chr c x : class_matches false [x] [] c = Ascii.eqb c x.
Proof. unfold class_matches. simpl. rewrite !orb_false_r. reflexivity. Qed.

Lemma block_body_loop n : forall s,
  (length s <= n)%nat ->
  star_loop (rmatch block_cmt_body) n s (fun s' => rmatch block_cmt_end s' Some)
  = block_body s.
Proof.
  induction n as [|n IH]; intros s Hn.
  - destruct s; [reflexivity|simpl in Hn; lia].
  - destruct s as [|c s']; [reflexivity|].
    cbn [star_loop rmatch block_cmt_body block_cmt_end Chr block_body].
    rewrite !class_not, !class_chr. fold star slash.
    destruct (Ascii.eqb c star) eqn:Hc; cbn [negb].
    + destruct s' as [|c' s'']; [reflexivity|].
      rewrite !class_not, !class_chr. fold slash.
      destruct (Ascii.eqb c' slash) eqn:Hc'; cbn [negb].
      * reflexivity.
      * assert (Hlt : (length s'' <? length (c :: c' :: s''))%nat = true)
          by (apply Nat.ltb_lt; simpl; lia).
        rewrite Hlt, IH by (simpl in Hn; lia).
        destruct (block_body s''); reflexivity.
    + assert (Hlt : (length s' <? length (c :: s'))%nat = true)
        by (apply Nat.ltb_lt; simpl; lia).
      rewrite Hlt, IH by (simpl in Hn; lia).
      destruct (block_body s'); reflexivity.
Qed.

(** [lex] at a [/*]: none of the three patterns tried first matches, and
    no operator starts with a slash, so the scan decides. *)
Lemma exec_sticky_at r text start s :
  drop start text = s -> s <> [] ->
  exec_sticky r text start =
  match rmatch r s Some with
  | Some rest => Some (take (length s - length rest)%nat s)
  | None => None
  end.
Proof.
  intros Hs Hne. unfold exec_sticky.
  destruct (Nat.ltb_spec (length text) start) as [Hlt|Hle].
  - rewrite drop_ge in Hs by lia. congruence.
  - rewrite Hs. reflexivity.
Qed.

Lemma lex_at_block_comment text start s :
  drop start text = slash :: star :: s ->
  lex text start =
  match block_body s with
  | Some rest =>
      let m := take (length (slash :: star :: s) - length rest)%nat
                 (slash :: star :: s) in
      ret (TokComment (string_of_list_ascii m), (start + length m)%nat)
  | None =>
      let** _ := console_log
                   (LogString (string_of_list_ascii (take start text))) in
      throw "lexer consumed no input"
  end.
Proof.
  intros Hs. unfold lex.
  rewrite (exec_sticky_at ident_regex _ _ _ Hs) by discriminate.
  rewrite (exec_sticky_at ws_regex _ _ _ Hs) by discriminate.
  rewrite (exec_sticky_at line_cmt_regex _ _ _ Hs) by discriminate.
  rewrite (exec_sticky_at block_cmt_regex _ _ _ Hs) by discriminate.
  change (rmatch ident_regex (slash :: star :: s) Some) with (@None (list ascii)).
  change (rmatch ws_regex (slash :: star :: s) Some) with (@None (list ascii)).
  change (rmatch line_cmt_regex (slash :: star :: s) Some)
    with (@None (list ascii)).
  change (rmatch block_cmt_regex (slash :: star :: s) Some)
    with (star_loop (rmatch block_cmt_body) (length s) s
            (fun s' => rmatch block_cmt_end s' Some)).
  rewrite block_body_loop by lia.
  destruct (block_body s) as [rest|]; [reflexivity|].
  unfold starts_with. rewrite Hs. reflexivity.
Qed.

(** With no star in the body the scan ends at the first [*/]; with a star
    right before a [*/] it goes over it. *)
Lemma block_body_no_star body rest :
  Forall (fun c => c <> star) body ->
  block_body (body ++ star :: slash :: rest) = Some rest.
Proof.
  induction 1 as [|c body Hc _ IH]; [reflexivity|].
  simpl. apply Ascii.eqb_neq in Hc. rewrite Hc. exact IH.
Qed.

Lemma block_body_double_star body rest :
  Forall (fun c => c <> star) body ->
  block_body (body ++ star :: star :: slash :: rest) = block_body rest.
Proof.
  induction 1 as [|c body Hc _ IH]; [reflexivity|].
  simpl. apply Ascii.eqb_neq in Hc. rewrite Hc. exact IH.
Qed.

Lemma block_body_split n : forall s rest,
  (length s <= n)%nat ->
  block_body s = Some rest ->
  exists body, s = body ++ star :: slash :: rest.
Proof.
  induction n as [|n IH]; intros s rest Hn H.
  - destruct s; [discriminate|simpl in Hn; lia].
  - destruct s as [|c s']; [discriminate|]. simpl in H.
    destruct (Ascii.eqb c star) eqn:Hc.
    + apply Ascii.eqb_eq in Hc as ->.
      destruct s' as [|c' s'']; [discriminate|].
      destruct (Ascii.eqb c' slash) eqn:Hc'.
      * apply Ascii.eqb_eq in Hc' as ->. injection H as ->. exists []. reflexivity.
      * destruct (IH s'' rest) as [body ->]; [simpl in Hn; lia|exact H|].
        exists (star :: c' :: body). reflexivity.
    + destruct (IH s' rest) as [body ->]; [simpl in Hn; lia|exact H|].
      exists (c :: body). reflexivity.
Qed.

(** Whatever the scan accepts ends with [*/]. *)
Lemma block_body_ends_with_close s rest :
  block_body s = Some rest -> exists body, s = body ++ star :: slash :: rest.
Proof. apply (block_body_split (length s)). lia. Qed.

(** A comment whose body has no star is read as the specification says:
    the token runs from the [/*] to the first [*/], both included. *)
Lemma lex_block_comment_plain pre body rest :
  Forall (fun c => c <> star) body ->
  lex (pre ++ slash :: star :: body ++ star :: slash :: rest) (length pre)
  = ret (TokComment
           (string_of_list_ascii (slash :: star :: body ++ [star; slash])),
         (length pre + (length body + 4))%nat).
Proof.
  intros Hbody.
  rewrite (lex_at_block_comment _ _ (body ++ star :: slash :: rest))
    by apply drop_app_length.
  rewrite block_body_no_star by exact Hbody.
  cbv zeta.
  assert (Hsplit : slash :: star :: body ++ star :: slash :: rest
                   = (slash :: star :: body ++ [star; slash]) ++ rest).
  { simpl. rewrite <- app_assoc. reflexivity. }
  rewrite Hsplit, length_app, Nat.add_sub, take_app_length.
  do 3 f_equal. simpl. rewrite length_app. simpl. lia.
Qed.

(** With a star right before the closing [*/] that closing is missed, and
    the comment ends at a later [*/] if there is one. *)
Lemma lex_block_comment_starred pre body rest :
  Forall (fun c => c <> star) body ->
  block_body rest = None ->
  lex (pre ++ slash :: star :: body ++ star :: star :: slash :: rest)
    (length pre)
  = ([ConsoleLog (LogString (string_of_list_ascii pre))],
     Throw "lexer consumed no input").
Proof.
  intros Hbody Hrest.
  rewrite (lex_at_block_comment _ _ (body ++ star :: star :: slash :: rest))
    by apply drop_app_length.
  rewrite block_body_double_star, Hrest by exact Hbody.
  rewrite take_app_length. reflexivity.
Qed.

(** C8 (block comments).  The pattern pairs a star with the character
    after it, whatever that is, so a star right before the closing [*/]
    swallows the star of the [*/].  On [/***/], wherever it stands at the
    end of the text, nothing matches and [lex] throws; on
    [/* a **/ b */ c] the comment runs past the first [*/] to the second
    one.  A comment with no star before its end is read as the claim says
    ([lex_block_comment_plain]). *)
Theorem lex_block_comment_star_before_end :
  (forall pre,
     lex (pre ++ list_ascii_of_string "/***/") (length pre)
     = ([ConsoleLog (LogString (string_of_list_ascii pre))],
        Throw "lexer consumed no input"))
  /\ lex (list_ascii_of_string "/***/") 0
     = ([ConsoleLog (LogString "")], Throw "lexer consumed no input")
  /\ lex (list_ascii_of_string "/* a **/ b */ c") 0
     = ([], Normal (TokComment "/* a **/ b */", 13%nat))
  /\ lex (list_ascii_of_string "/* a */ b */ c") 0
     = ([], Normal (TokComment "/* a */", 7%nat)).
Proof.
  split.
  { intros pre. apply (lex_block_comment_starred pre [] []); constructor. }
  repeat split; vm_compute; reflexivity.
Qed.

(** * Further properties of the code *)

(** ** The kernel *)


Lemma replace_substitutable tail value : forall depth,
  substitutable tail = true -> returns (replace tail value depth).
Proof.
  induction tail as [h IHh t IHt| |f IHf v IHv|n| |i| |]; intros depth H;
    simpl in H; try discriminate; simpl.
  - apply andb_true_iff in H as [Hh Ht].
    destruct (IHh depth Hh) as [h' ->]. destruct (IHt (depth + 1) Ht) as [t' ->].
    eexists; reflexivity.
  - apply andb_true_iff in H as [Hf Hv].
    destruct (IHf depth Hf) as [f' ->]. destruct (IHv depth Hv) as [v' ->].
    eexists; reflexivity.
  - eexists; reflexivity.
  - destruct (i =? depth); [eexists; reflexivity|].
    destruct (i >? depth); eexists; reflexivity.
Qed.

Lemma replace_not_substitutable tail value : forall depth,
  substitutable tail = false -> throws (replace tail value depth).
Proof.
  induction tail as [h IHh t IHt|h _ t _|f IHf v IHv|n| |i|n t _|];
    intros depth H; simpl in H; try discriminate; simpl;
    try (eexists; reflexivity).
  - destruct (substitutable h) eqn:Hh.
    + destruct (replace_substitutable h value depth Hh) as [h' ->]. simpl.
      apply bind_throws. apply IHt. exact H.
    + apply bind_throws. apply IHh. reflexivity.
  - destruct (substitutable f) eqn:Hf.
    + destruct (replace_substitutable f value depth Hf) as [f' ->]. simpl.
      apply bind_throws. apply IHv. exact H.
    + apply bind_throws. apply IHf. reflexivity.
Qed.

(** X2.  [replace] returns exactly on the tails made of [Ref], [Ident],
    [Application] and [Pi] nodes; on every other tail it throws, whatever
    the value and the depth. *)
Theorem replace_returns_iff tail value depth :
  (returns (replace tail value depth) <-> substitutable tail = true)
  /\ (throws (replace tail value depth) <-> substitutable tail = false).
Proof.
  destruct (substitutable tail) eqn:H.
  - pose proof (replace_substitutable tail value depth H) as Hr.
    split; split; intros H'; try reflexivity; try exact Hr; try discriminate.
    destruct (throws_not_returns _ H' Hr).
  - pose proof (replace_not_substitutable tail value depth H) as Ht.
    split; split; intros H'; try reflexivity; try exact Ht; try discriminate.
    destruct (throws_not_returns _ Ht H').
Qed.

Lemma replace_closed_tail tail value : forall depth,
  refs_below depth tail = true -> replace tail value depth = Normal tail.
Proof.
  induction tail as [h IHh t IHt| |f IHf v IHv|n| |i| |]; intros depth H;
    simpl in H; try discriminate; simpl.
  - apply andb_true_iff in H as [Hh Ht].
    rewrite (IHh depth Hh), (IHt (depth + 1) Ht). reflexivity.
  - apply andb_true_iff in H as [Hf Hv].
    rewrite (IHf depth Hf), (IHv depth Hv). reflexivity.
  - reflexivity.
  - apply Z.ltb_lt in H.
    destruct (Z.eqb_spec i depth); [lia|].
    destruct (Z.gtb_spec i depth); [lia|reflexivity].
Qed.

(** X3.  Substituting in a tail that does not mention the binder at
    [depth], nor any binder outside it, gives the tail back. *)
Theorem replace_refs_below tail value depth :
  refs_below depth tail = true -> replace tail value depth = Normal tail.
Proof. apply replace_closed_tail. Qed.

Lemma replace_refs_below_witness :
  replace (Pi (Ident "A") (Application (Ident "P") (Ref 1))) (Ident "x") 1
  = Normal (Pi (Ident "A") (Application (Ident "P") (Ref 1))).
Proof.
  apply (replace_refs_below
           (Pi (Ident "A") (Application (Ident "P") (Ref 1))) (Ident "x") 1).
  reflexivity.
Defined.

(** ** Structural equality *)

Lemma deep_eq_decides a : forall b r,
  deep_eq a b = Normal r -> r = bool_decide (a = b).
Proof.
  induction a as [h IHh t IHt|h IHh t IHt|f IHf v IHv|n| |i| |];
    intros b r H; simpl in H; try discriminate;
    destruct b as [bh bt|bh bt|bf bv|bn| |bi|bn bt|];
    try (injection H as <-; symmetry; apply bool_decide_eq_false;
         discriminate).
  - apply bind_normal in H as (r1 & H1 & H).
    apply IHh in H1 as ->. case_bool_decide as Eh.
    + subst bh. apply IHt in H as ->.
      apply bool_decide_ext. split; congruence.
    + injection H as <-. symmetry. apply bool_decide_eq_false. congruence.
  - apply bind_normal in H as (r1 & H1 & H).
    apply IHh in H1 as ->. case_bool_decide as Eh.
    + subst bh. apply IHt in H as ->.
      apply bool_decide_ext. split; congruence.
    + injection H as <-. symmetry. apply bool_decide_eq_false. congruence.
  - apply bind_normal in H as (r1 & H1 & H).
    apply IHf in H1 as ->. case_bool_decide as Ef.
    + subst bf. apply IHv in H as ->.
      apply bool_decide_ext. split; congruence.
    + injection H as <-. symmetry. apply bool_decide_eq_false. congruence.
  - injection H as <-. apply bool_decide_ext. split; congruence.
  - injection H as <-.
    destruct (Z.eqb_spec i bi) as [->|Hne]; symmetry;
      [apply bool_decide_eq_true|apply bool_decide_eq_false]; congruence.
Qed.

Lemma deep_eq_comparable a : forall b,
  comparable a = true -> returns (deep_eq a b).
Proof.
  induction a as [h IHh t IHt|h IHh t IHt|f IHf v IHv|n| |i| |];
    intros b H; simpl in H; try discriminate;
    destruct b as [bh bt|bh bt|bf bv|bn| |bi|bn bt|]; simpl;
    try (eexists; reflexivity);
    apply andb_true_iff in H as [H1 H2].
  - destruct (IHh bh H1) as [[] ->]; simpl; [apply IHt; exact H2|].
    eexists; reflexivity.
  - destruct (IHh bh H1) as [[] ->]; simpl; [apply IHt; exact H2|].
    eexists; reflexivity.
  - destruct (IHf bf H1) as [[] ->]; simpl; [apply IHv; exact H2|].
    eexists; reflexivity.
Qed.

(** X4.  Whenever [deep_eq] returns, it returns [true] on identical
    expressions and [false] on different ones; it never returns a wrong
    answer by way of its short cuts. *)
Theorem deep_eq_sound a b r :
  deep_eq a b = Normal r -> (r = true <-> a = b).
Proof.
  intros H. apply deep_eq_decides in H as ->.
  rewrite bool_decide_eq_true. reflexivity.
Qed.

Lemma deep_eq_sound_witness :
  true = true <->
  Pi (Ident "A") (Ref 1) = Pi (Ident "A") (Ref 1).
Proof.
  apply (deep_eq_sound (Pi (Ident "A") (Ref 1)) (Pi (Ident "A") (Ref 1)) true).
  reflexivity.
Defined.

Lemma deep_eq_total_on_comparable_aux a b :
  comparable a = true -> deep_eq a b = Normal (bool_decide (a = b)).
Proof.
  intros H. destruct (deep_eq_comparable a b H) as [r Hr].
  rewrite Hr. f_equal. apply (deep_eq_decides _ _ _ Hr).
Qed.

(** X5.  When its first argument has no [Error], [Binding] or [Sorry]
    node, [deep_eq] does not throw, whatever the second argument is, and
    tells whether the two are the same expression. *)
Theorem deep_eq_total_on_comparable a b :
  comparable a = true -> deep_eq a b = Normal (bool_decide (a = b)).
Proof. apply deep_eq_total_on_comparable_aux. Qed.

Lemma deep_eq_total_on_comparable_witness :
  deep_eq (Lambda (Ident "A") (Ref 1)) Sorry
  = Normal (bool_decide (Lambda (Ident "A") (Ref 1) = Sorry)).
Proof.
  apply (deep_eq_total_on_comparable (Lambda (Ident "A") (Ref 1)) Sorry).
  reflexivity.
Defined.

(** ** The resolver *)

Lemma bound_index_first (name : string) l1 : forall l2 i,
  Some name ∉ l1 ->
  bound_index (l1 ++ Some name :: l2) name i = Some (i + Z.of_nat (length l1)).
Proof.
  induction l1 as [|b l1 IH]; intros l2 i Hnot; simpl.
  - rewrite bool_decide_eq_true_2 by reflexivity. f_equal. lia.
  - apply not_elem_of_cons in Hnot as [Hne Hnot].
    rewrite bool_decide_eq_false_2 by congruence.
    rewrite IH by exact Hnot. f_equal. lia.
Qed.

Lemma bound_index_range (name : string) l : forall i j,
  bound_index l name i = Some j -> i <= j < i + Z.of_nat (length l).
Proof.
  induction l as [|b l IH]; intros i j H; simpl in H; [discriminate|].
  case_bool_decide.
  - injection H as <-. simpl. lia.
  - apply IH in H. simpl. lia.
Qed.

(** X6.  A name bound more than once refers to its innermost binder: the
    index counts the binders pushed after the last one of that name.  The
    local binder wins over any global of the same name, defined or not. *)
Theorem rename_innermost_binder defs name outer inner :
  Some name ∉ inner ->
  rename defs (Ident name) (outer ++ Some name :: inner)
  = Normal (Ref (Z.of_nat (length inner) + 1)).
Proof.
  intros Hnot. simpl.
  rewrite reverse_app, reverse_cons, <- app_assoc. simpl.
  rewrite bound_index_first, length_reverse
    by (rewrite elem_of_reverse; exact Hnot).
  do 2 f_equal. lia.
Qed.

Lemma rename_innermost_binder_witness :
  rename initial_defs (Ident "Type") [Some "Type"; None; Some "Type"; Some "x"]
  = Normal (Ref (Z.of_nat (length [Some "x"]) + 1)).
Proof.
  apply (rename_innermost_binder initial_defs "Type"
           [Some "Type"; None] [Some "x"]).
  apply not_elem_of_cons. split; [discriminate|apply not_elem_of_nil].
Defined.

Lemma resolved_weaken e : forall d d',
  d <= d' -> resolved d e = true -> resolved d' e = true.
Proof.
  induction e as [h IHh t IHt|h IHh t IHt|f IHf v IHv|n| |i| |];
    intros d d' Hle H; simpl in *; try discriminate; try reflexivity.
  - apply andb_true_iff in H as [Hh Ht]. apply andb_true_iff.
    split; [eapply IHh|eapply IHt]; try eassumption; lia.
  - apply andb_true_iff in H as [Hh Ht]. apply andb_true_iff.
    split; [eapply IHh|eapply IHt]; try eassumption; lia.
  - apply andb_true_iff in H as [Hf Hv]. apply andb_true_iff.
    split; [eapply IHf|eapply IHv]; eassumption.
  - apply andb_true_iff in H as [H1 H2]. apply andb_true_iff.
    apply Z.leb_le in H1, H2. split; apply Z.leb_le; lia.
Qed.

Section Resolved.

Variable defs : Defs.
Hypothesis bodies_resolved :
  forall name d body,
    defs !! name = Some d -> def d = Some body -> resolved 0 body = true.

Let resolves (e : Expr) : Prop :=
  forall bound e',
    rename defs e bound = Normal e' ->
    resolved (Z.of_nat (length bound)) e' = true.

Lemma rename_binder_resolved (mk : Expr -> Expr -> Expr) h t bound e'
    (entry : option string) :
  (forall d a b, resolved d (mk a b) = resolved d a && resolved (d + 1) b) ->
  resolves h -> resolves t ->
  (let* new_head := rename defs h bound in
   let* tail' := rename defs t (bound ++ [entry]) in
   Normal (mk new_head tail')) = Normal e' ->
  resolved (Z.of_nat (length bound)) e' = true.
Proof.
  intros Hmk Hh Ht H.
  apply bind_normal in H as (h' & H1 & H).
  apply bind_normal in H as (t' & H2 & H). injection H as <-.
  apply Hh in H1. apply Ht in H2.
  rewrite length_app in H2. simpl in H2.
  rewrite Hmk, H1. simpl.
  rewrite <- H2. f_equal. lia.
Qed.

Lemma rename_resolves e :
  resolves e
  /\ match e with Binding _ t => resolves t | _ => True end.
Proof.
  induction e as [h [IHh IHb] t [IHt _]|h [IHh IHb] t [IHt _]
                 |f [IHf _] v [IHv _]|n| |i|n t [IHt _]|];
    (split; [|try exact I; try exact IHt]); intros bound e' H.
  - destruct h;
      lazymatch type of H with
      | rename _ (Pi (Binding ?n ?t0) _) _ = _ =>
          apply (rename_binder_resolved Pi t0 t bound e' (Some n))
      | rename _ (Pi ?h0 _) _ = _ =>
          apply (rename_binder_resolved Pi h0 t bound e' None)
      end; try reflexivity; try exact IHt; try exact H;
      try exact IHh; exact IHb.
  - destruct h;
      lazymatch type of H with
      | rename _ (Lambda (Binding ?n ?t0) _) _ = _ =>
          apply (rename_binder_resolved Lambda t0 t bound e' (Some n))
      | rename _ (Lambda ?h0 _) _ = _ =>
          apply (rename_binder_resolved Lambda h0 t bound e' None)
      end; try reflexivity; try exact IHt; try exact H;
      try exact IHh; exact IHb.
  - simpl in H. apply bind_normal in H as (f' & H1 & H).
    apply bind_normal in H as (v' & H2 & H). injection H as <-.
    simpl. rewrite (IHf _ _ H1), (IHv _ _ H2). reflexivity.
  - simpl in H.
    destruct (bound_index (reverse bound) n 1) as [j|] eqn:Hj.
    + injection H as <-. apply bound_index_range in Hj.
      rewrite length_reverse in Hj. simpl.
      apply andb_true_iff. split; apply Z.leb_le; lia.
    + destruct (defs !! n) as [d|] eqn:Hd; [|discriminate].
      destruct (def d) as [body|] eqn:Hb.
      * injection H as <-.
        apply (resolved_weaken body 0); [lia|].
        eapply bodies_resolved; eassumption.
      * injection H as <-. reflexivity.
  - discriminate.
  - discriminate.
  - discriminate.
  - discriminate.
Qed.


End Resolved.

Lemma initial_defs_no_body name d body :
  initial_defs !! name = Some d -> def d = Some body ->
  resolved 0 body = true.
Proof.
  unfold initial_defs. intros Hl Hb.
  apply lookup_insert_Some in Hl as [[_ <-]|[_ Hl]]; [discriminate|].
  apply lookup_insert_Some in Hl as [[_ <-]|[_ Hl]]; [discriminate|].
  rewrite lookup_empty in Hl. discriminate.
Qed.


(** ** The driver *)

Lemma io_bind_assoc {A B C : Type} (m : io A) (f : A -> io B) (g : B -> io C) :
  io_bind (io_bind m f) g = io_bind m (fun a => io_bind (f a) g).
Proof.
  destruct m as [o [a|msg|]]; simpl; try reflexivity.
  destruct (f a) as [o1 [b|msg|]]; simpl; try reflexivity.
  destruct (g b) as [o2 r]. rewrite app_assoc. reflexivity.
Qed.

Lemma io_bind_ext {A B : Type} (m : io A) (f g : A -> io B) :
  (forall a, f a = g a) -> io_bind m f = io_bind m g.
Proof.
  intros H. destruct m as [o [a|msg|]]; simpl; try reflexivity.
  rewrite H. reflexivity.
Qed.

Lemma io_bind_ret {A B : Type} (a : A) (f : A -> io B) :
  io_bind (ret a) f = f a.
Proof. unfold ret. simpl. destruct (f a). reflexivity. Qed.

(** X8.  Checking a list of declarations is checking a first part and
    then the rest in the environment the first part leaves; when the first
    part throws, the rest is not looked at and the output stops there. *)
Theorem driver_app fuel ast1 ast2 : forall defs,
  driver fuel (ast1 ++ ast2) defs
  = io_bind (driver fuel ast1 defs) (fun defs' => driver fuel ast2 defs').
Proof.
  induction ast1 as [|stmt ast1 IH]; intros defs.
  - change (driver fuel ast2 defs
            = io_bind (ret defs) (fun defs' => driver fuel ast2 defs')).
    rewrite io_bind_ret. reflexivity.
  - change (io_bind (check_stmt fuel defs stmt)
              (fun defs' => driver fuel (ast1 ++ ast2) defs')
            = io_bind
                (io_bind (check_stmt fuel defs stmt)
                   (fun defs' => driver fuel ast1 defs'))
                (fun defs' => driver fuel ast2 defs')).
    rewrite io_bind_assoc. apply io_bind_ext. intros defs'. apply IH.
Qed.

(** What a successful [check_stmt] has done. *)
Lemma check_stmt_inv fuel defs stmt out defs' :
  check_stmt fuel defs stmt = (out, Normal defs') ->
  exists t d,
    rename defs (stmt_ty stmt) [] = Normal t
    /\ defs' = <[stmt_ident stmt := mkDef t d]> defs
    /\ match stmt_def stmt with
       | None => d = None /\ out = []
       | Some body =>
           exists body',
             rename defs body [] = Normal body'
             /\ d = Some body'
             /\ member_of fuel defs body' t [] = Normal true
             /\ out = [passed_line stmt]
       end.
Proof.
  unfold check_stmt. intros H.
  apply io_bind_normal in H as (o1 & t & o2 & Ht & H & ->).
  apply io_bind_normal in H as (o3 & d & o4 & Hd & H & ->).
  apply io_bind_normal in H as (o5 & u & o6 & Hc & H & ->).
  injection Ht as <- Ht. injection H as <- <-.
  exists t, d. split; [exact Ht|]. split; [reflexivity|].
  destruct (stmt_def stmt) as [body|].
  - apply io_bind_normal in Hd as (o7 & body' & o8 & Hb & Hd & ->).
    injection Hb as <- Hb. injection Hd as <- <-.
    apply io_bind_normal in Hc as (o9 & ok & o10 & Hm & Hc & ->).
    injection Hm as <- Hm.
    destruct ok.
    + injection Hc as <-. exists body'. auto.
    + apply io_bind_normal in Hc as (? & ? & ? & _ & Hc & _). discriminate.
  - injection Hd as <- <-. injection Hc as <-. auto.
Qed.







Lemma env_resolved_bodies defs :
  env_resolved defs ->
  forall name d body,
    defs !! name = Some d -> def d = Some body -> resolved 0 body = true.
Proof. intros He name d body Hl Hb. apply (He name d Hl). exact Hb. Qed.

Lemma env_resolved_initial : env_resolved initial_defs.
Proof.
  intros name d Hl. unfold initial_defs in Hl.
  apply lookup_insert_Some in Hl as [[_ <-]|[_ Hl]];
    [split; [auto|discriminate]|].
  apply lookup_insert_Some in Hl as [[_ <-]|[_ Hl]];
    [split; [auto|discriminate]|].
  rewrite lookup_empty in Hl. discriminate.
Qed.

Lemma check_stmt_env_resolved fuel defs stmt out defs' :
  env_resolved defs ->
  check_stmt fuel defs stmt = (out, Normal defs') ->
  env_resolved defs'.
Proof.
  intros He H. apply check_stmt_inv in H as (t & d & Ht & -> & Hb).
  pose proof (env_resolved_bodies defs He) as Hbodies.
  apply (proj1 (rename_resolves defs Hbodies _)) in Ht.
  intros name e Hl. apply lookup_insert_Some in Hl as [[_ <-]|[_ Hl]];
    [|apply (He name e Hl)].
  simpl. split; [auto|].
  intros body ->.
  destruct (stmt_def stmt) as [b|].
  - destruct Hb as (body' & Hr & Hd & _). injection Hd as ->.
    apply (proj1 (rename_resolves defs Hbodies _)) in Hr. exact Hr.
  - destruct Hb as [Hd _]. discriminate.
Qed.

Lemma driver_env_resolved fuel ast : forall defs out defs',
  env_resolved defs ->
  driver fuel ast defs = (out, Normal defs') ->
  env_resolved defs'.
Proof.
  induction ast as [|stmt ast IH]; intros defs out defs' He H; simpl in H.
  - injection H as _ <-. exact He.
  - apply io_bind_normal in H as (o1 & defs1 & o2 & Hc & Hd & _).
    eapply IH; [|exact Hd]. eapply check_stmt_env_resolved; eassumption.
Qed.



(** ** The escape hatch *)

(** X13.  While [SORRY] is the sentinel of the seeded environment, a
    declaration whose body is [SORRY] applied to an expression that
    resolves to the same expression as the declared type passes, with no
    check of that expression at all. *)
Theorem sorry_proves_anything fuel defs name t v t' :
  defs !! "SORRY" = Some (mkDef Sorry None) ->
  rename defs t [] = Normal t' ->
  rename defs v [] = Normal t' ->
  comparable t' = true ->
  check_stmt fuel defs
    (mkStatement name t (Some (Application (Ident "SORRY") v)))
  = ([ConsoleLog (LogString ("Proof '" +:+ name +:+ "' passed"))],
     Normal
       (<[name := mkDef t' (Some (Application (Ident "SORRY") t'))]> defs)).
Proof.
  intros Hs Ht Hv Hc. unfold check_stmt.
  cbn [stmt_ty stmt_def stmt_ident].
  rewrite Ht.
  change (rename defs (Application (Ident "SORRY") v) [])
    with (let* fn' := rename defs (Ident "SORRY") [] in
          let* value' := rename defs v [] in
          Normal (Application fn' value')).
  assert (Hr : rename defs (Ident "SORRY") [] = Normal (Ident "SORRY")).
  { simpl. rewrite Hs. reflexivity. }
  rewrite Hr, Hv.
  assert (Hm : member_of fuel defs (Application (Ident "SORRY") t') t' []
               = Normal true).
  { unfold member_of, member_of_with. simpl. rewrite Hs. simpl.
    rewrite deep_eq_total_on_comparable_aux by exact Hc.
    rewrite bool_decide_eq_true_2 by reflexivity. reflexivity. }
  simpl. rewrite Hm. reflexivity.
Qed.

Lemma sorry_proves_anything_witness :
  check_stmt 0 (<["Nat" := mkDef (Ident "Type") None]> initial_defs)
    (mkStatement "zero" (Ident "Nat")
       (Some (Application (Ident "SORRY") (Ident "Nat"))))
  = ([ConsoleLog (LogString ("Proof '" +:+ "zero" +:+ "' passed"))],
     Normal
       (<["zero" := mkDef (Ident "Nat")
                      (Some (Application (Ident "SORRY") (Ident "Nat")))]>
          (<["Nat" := mkDef (Ident "Type") None]> initial_defs))).
Proof.
  apply (sorry_proves_anything 0
           (<["Nat" := mkDef (Ident "Type") None]> initial_defs)
           "zero" (Ident "Nat") (Ident "Nat") (Ident "Nat"));
    vm_compute; reflexivity.
Defined.

(** ** The first draft and its dump *)

Section DraftDump.

Variable draft_type_of : Defs -> Expr -> completion Expr.
Variable draft_print_expr : Expr -> string.

Lemma quiet_draft_check_stmt defs stmt :
  quiet (draft_check_stmt draft_type_of draft_print_expr defs stmt).
Proof. unfold draft_check_stmt. quiet_tac. Qed.

Lemma quiet_draft_driver ast : forall defs,
  quiet (draft_driver draft_type_of draft_print_expr ast defs).
Proof.
  pose proof quiet_draft_check_stmt as Hcheck.
  induction ast as [|stmt rest IH]; intros defs; simpl; quiet_tac.
Qed.

(** X14.  The first draft writes its dump once, as the last thing it does
    and only when every declaration has been checked: the file is
    [./dump.json], the data is the environment the loop ended with, and a
    run that throws has written nothing. *)
Theorem draft_main_dump text :
  match outcome (draft_main draft_type_of draft_print_expr text) with
  | Normal _ =>
      exists out1 ast out2 defs,
        parse text = (out1, Normal ast)
        /\ draft_driver draft_type_of draft_print_expr ast draft_initial_defs
           = (out2, Normal defs)
        /\ quiet (out1 ++ out2, Normal tt)
        /\ output (draft_main draft_type_of draft_print_expr text)
           = out1 ++ out2 ++ [WriteFile "./dump.json" defs]
  | _ => quiet (draft_main draft_type_of draft_print_expr text)
  end.
Proof.
  unfold draft_main.
  pose proof (quiet_parse text) as Hp.
  destruct (parse text) as [out1 [ast|msg|]]; try exact Hp.
  pose proof (quiet_draft_driver ast draft_initial_defs) as Hd.
  cbn [io_bind].
  destruct (draft_driver draft_type_of draft_print_expr ast draft_initial_defs)
    as [out2 [defs|msg|]] eqn:Hdr; cbn [io_bind write outcome output fst snd].
  - exists out1, ast, out2, defs.
    split; [reflexivity|]. split; [exact Hdr|]. split; [|reflexivity].
    intros path data Hin. cbn [output fst] in Hin.
    apply elem_of_app in Hin as [Hin|Hin];
      [apply (Hp path data Hin)|apply (Hd path data Hin)].
  - intros path data Hin. cbn [output fst] in Hin.
    apply elem_of_app in Hin as [Hin|Hin];
      [apply (Hp path data Hin)|apply (Hd path data Hin)].
  - intros path data Hin. cbn [output fst] in Hin.
    apply elem_of_app in Hin as [Hin|Hin];
      [apply (Hp path data Hin)|apply (Hd path data Hin)].
Qed.

End DraftDump.

(** ** The lexer, pattern by pattern *)

Lemma star_loop_S step n s k :
  star_loop step (S n) s k
  = match step s (fun s' => if (length s' <? length s)%nat
                            then star_loop step n s' k else None) with
    | Some rest => Some rest
    | None => k s
    end.
Proof. reflexivity. Qed.

Lemma rmatch_class neg cs rs c s k :
  rmatch (CharSet neg cs rs) (c :: s) k
  = if class_matches neg cs rs c then k s else None.
Proof. reflexivity. Qed.

Lemma star_loop_class neg cs rs w : forall n rest k r,
  Forall (fun c => class_matches neg cs rs c = true) w ->
  (forall c, head rest = Some c -> class_matches neg cs rs c = false) ->
  (length (w ++ rest) <= n)%nat ->
  k rest = Some r ->
  star_loop (rmatch (CharSet neg cs rs)) n (w ++ rest) k = Some r.
Proof.
  induction w as [|c w IH]; intros n rest k r Hw Hrest Hn Hk.
  - destruct n as [|n]; [exact Hk|]. rewrite star_loop_S. simpl app.
    destruct rest as [|c rest]; [simpl; rewrite Hk; reflexivity|].
    rewrite rmatch_class, (Hrest c eq_refl), Hk. reflexivity.
  - apply Forall_cons in Hw as [Hc Hw].
    destruct n as [|n]; [simpl in Hn; lia|].
    rewrite star_loop_S. simpl app. rewrite rmatch_class, Hc.
    assert (Hlt : (length (w ++ rest) <? length (c :: w ++ rest))%nat = true)
      by (apply Nat.ltb_lt; simpl; lia).
    rewrite Hlt, (IH n rest k r Hw Hrest) by (simpl in Hn; try lia; exact Hk).
    reflexivity.
Qed.

(** A run of characters of a class, as long as it can be, is what the
    pattern [class+] matches. *)
Lemma exec_sticky_plus_class neg cs rs pre w rest :
  w <> [] ->
  Forall (fun c => class_matches neg cs rs c = true) w ->
  (forall c, head rest = Some c -> class_matches neg cs rs c = false) ->
  exec_sticky (Plus (CharSet neg cs rs)) (pre ++ w ++ rest) (length pre)
  = Some w.
Proof.
  intros Hne Hw Hrest.
  destruct w as [|c w]; [congruence|].
  rewrite (exec_sticky_at _ _ _ ((c :: w) ++ rest));
    [|apply drop_app_length|discriminate].
  pose proof Hw as Hw'. apply Forall_cons in Hw' as [Hc Hw'].
  change (rmatch (Plus (CharSet neg cs rs)) ((c :: w) ++ rest) Some)
    with (rmatch (CharSet neg cs rs) (c :: w ++ rest)
            (fun s' => star_loop (rmatch (CharSet neg cs rs)) (length s') s'
                         Some)).
  rewrite rmatch_class, Hc.
  rewrite (star_loop_class neg cs rs w _ rest Some rest Hw' Hrest)
    by (try lia; reflexivity).
  f_equal.
  change (c :: w ++ rest) with ((c :: w) ++ rest).
  rewrite length_app, Nat.add_sub. apply take_app_length.
Qed.

Lemma exec_sticky_plus_class_none neg cs rs text start c s :
  drop start text = c :: s ->
  class_matches neg cs rs c = false ->
  exec_sticky (Plus (CharSet neg cs rs)) text start = None.
Proof.
  intros Hs Hc. rewrite (exec_sticky_at _ _ _ _ Hs) by discriminate.
  change (rmatch (Plus (CharSet neg cs rs)) (c :: s) Some)
    with (rmatch (CharSet neg cs rs) (c :: s)
            (fun s' => star_loop (rmatch (CharSet neg cs rs)) (length s') s'
                         Some)).
  rewrite rmatch_class, Hc. reflexivity.
Qed.

Lemma ws_char_not_ident c : ws_char c = true -> ident_char c = false.
Proof.
  unfold ws_char, class_matches. simpl. rewrite !orb_false_r.
  intros H. repeat (apply orb_true_iff in H as [H|H]);
    apply Ascii.eqb_eq in H; subst c; reflexivity.
Qed.

(** X15.  At the end of the text, and beyond it, [lex] matches nothing: it
    prints the text and throws. *)
Theorem lex_at_end text start :
  (length text <= start)%nat ->
  lex text start
  = ([ConsoleLog (LogString (string_of_list_ascii text))],
     Throw "lexer consumed no input").
Proof.
  intros Hle. unfold lex, exec_sticky, starts_with.
  rewrite (drop_ge text start), (take_ge text start) by lia.
  destruct (length text <? start)%nat; reflexivity.
Qed.

Lemma lex_at_end_witness :
  lex [] 0
  = ([ConsoleLog (LogString (string_of_list_ascii []))],
     Throw "lexer consumed no input").
Proof. apply (lex_at_end [] 0). simpl. lia. Defined.

(** A run of identifier characters is matched to its end. *)
Lemma lex_identifier_aux pre w rest :
  w <> [] ->
  Forall (fun c => ident_char c = true) w ->
  (forall c, head rest = Some c -> ident_char c = false) ->
  lex (pre ++ w ++ rest) (length pre)
  = ret (TokIdent (string_of_list_ascii w), (length pre + length w)%nat).
Proof.
  intros Hne Hw Hrest. unfold lex, ident_regex.
  rewrite (exec_sticky_plus_class _ _ _ pre w rest Hne Hw Hrest).
  reflexivity.
Qed.

(** X16.  An identifier is read to its end: at a run of identifier
    characters followed by the end of the text or by another character,
    [lex] returns the whole run as one identifier. *)
Theorem lex_identifier pre w rest :
  w <> [] ->
  Forall (fun c => ident_char c = true) w ->
  (forall c, head rest = Some c -> ident_char c = false) ->
  lex (pre ++ w ++ rest) (length pre)
  = ret (TokIdent (string_of_list_ascii w), (length pre + length w)%nat).
Proof. exact (lex_identifier_aux pre w rest). Qed.

Lemma lex_identifier_witness :
  lex (list_ascii_of_string "a : Nat.zero;") 4
  = ret (TokIdent "Nat.zero", 12%nat).
Proof.
  apply (lex_identifier (list_ascii_of_string "a : ")
           (list_ascii_of_string "Nat.zero") (list_ascii_of_string ";")).
  - discriminate.
  - repeat constructor.
  - intros c H. injection H as <-. reflexivity.
Defined.

(** A run of white space is matched to its end. *)
Lemma lex_whitespace_aux pre w rest :
  w <> [] ->
  Forall (fun c => ws_char c = true) w ->
  (forall c, head rest = Some c -> ws_char c = false) ->
  lex (pre ++ w ++ rest) (length pre)
  = ret (TokWhitespace, (length pre + length w)%nat).
Proof.
  intros Hne Hw Hrest. unfold lex, ident_regex.
  destruct w as [|c w]; [congruence|].
  pose proof Hw as Hw'. apply Forall_cons in Hw' as [Hc _].
  rewrite (exec_sticky_plus_class_none _ _ _ _ _ c (w ++ rest));
    [|apply drop_app_length|apply ws_char_not_ident; exact Hc].
  unfold ws_regex.
  rewrite (exec_sticky_plus_class _ _ _ pre (c :: w) rest Hne Hw Hrest).
  reflexivity.
Qed.

(** X17.  White space is read to its end and gives one token. *)
Theorem lex_whitespace pre w rest :
  w <> [] ->
  Forall (fun c => ws_char c = true) w ->
  (forall c, head rest = Some c -> ws_char c = false) ->
  lex (pre ++ w ++ rest) (length pre)
  = ret (TokWhitespace, (length pre + length w)%nat).
Proof. exact (lex_whitespace_aux pre w rest). Qed.

Lemma lex_whitespace_witness :
  lex (list_ascii_of_string "a  :") 1 = ret (TokWhitespace, 3%nat).
Proof.
  apply (lex_whitespace (list_ascii_of_string "a")
           (list_ascii_of_string "  ") (list_ascii_of_string ":")).
  - discriminate.
  - repeat constructor.
  - intros c H. injection H as <-. reflexivity.
Defined.

(** X18.  A line comment runs from [//] to the end of the line, the line
    feed left out, or to the end of the text. *)
Theorem lex_line_comment pre body rest :
  Forall (fun c => c <> lf) body ->
  (forall c, head rest = Some c -> c = lf) ->
  lex (pre ++ slash :: slash :: body ++ rest) (length pre)
  = ret (TokComment (string_of_list_ascii (slash :: slash :: body)),
         (length pre + (length body + 2))%nat).
Proof.
  intros Hbody Hrest. unfold lex.
  assert (Hs : drop (length pre) (pre ++ slash :: slash :: body ++ rest)
               = slash :: slash :: body ++ rest) by apply drop_app_length.
  rewrite (exec_sticky_at ident_regex _ _ _ Hs) by discriminate.
  rewrite (exec_sticky_at ws_regex _ _ _ Hs) by discriminate.
  rewrite (exec_sticky_at line_cmt_regex _ _ _ Hs) by discriminate.
  change (rmatch ident_regex (slash :: slash :: body ++ rest) Some)
    with (@None (list ascii)).
  change (rmatch ws_regex (slash :: slash :: body ++ rest) Some)
    with (@None (list ascii)).
  change (rmatch line_cmt_regex (slash :: slash :: body ++ rest) Some)
    with (star_loop (rmatch (CharSet true [lf] [])) (length (body ++ rest))
            (body ++ rest) Some).
  rewrite (star_loop_class true [lf] [] body _ rest Some rest);
    try lia; try reflexivity.
  - change (slash :: slash :: body ++ rest)
      with ((slash :: slash :: body) ++ rest).
    rewrite length_app, Nat.add_sub, take_app_length.
    unfold ret. do 3 f_equal. simpl. lia.
  - eapply Forall_impl; [exact Hbody|]. intros c Hc. cbv beta in Hc |- *.
    rewrite class_not. apply negb_true_iff, Ascii.eqb_neq. exact Hc.
  - intros c Hc. rewrite (Hrest c Hc). reflexivity.
Qed.

Lemma lex_line_comment_witness :
  lex (list_ascii_of_string "a // b") 2 = ret (TokComment "// b", 6%nat).
Proof.
  apply (lex_line_comment (list_ascii_of_string "a ")
           (list_ascii_of_string " b") []).
  - repeat constructor; discriminate.
  - intros c H. discriminate.
Defined.

Lemma starts_with_at pre s o :
  starts_with (pre ++ s) o (length pre)
  = bool_decide (take (length (list_ascii_of_string o)) s
                 = list_ascii_of_string o).
Proof. unfold starts_with. rewrite drop_app_length. reflexivity. Qed.

(** The operators are tried in the order of [ops]. *)
Lemma lex_operator_aux op pre rest :
  (op = Colon -> head rest <> Some "="%char) ->
  lex (pre ++ list_ascii_of_string (punct_string op) ++ rest) (length pre)
  = ret (TokPunct op,
         (length pre + String.length (punct_string op))%nat).
Proof.
  intros Hcolon. unfold lex.
  set (s := list_ascii_of_string (punct_string op) ++ rest).
  assert (Hs : drop (length pre) (pre ++ s) = s) by apply drop_app_length.
  assert (Hne : s <> []) by (unfold s; destruct op; discriminate).
  rewrite (exec_sticky_at ident_regex _ _ _ Hs Hne).
  rewrite (exec_sticky_at ws_regex _ _ _ Hs Hne).
  rewrite (exec_sticky_at line_cmt_regex _ _ _ Hs Hne).
  rewrite (exec_sticky_at block_cmt_regex _ _ _ Hs Hne).
  assert (Hnone : rmatch ident_regex s Some = None
                  /\ rmatch ws_regex s Some = None
                  /\ rmatch line_cmt_regex s Some = None
                  /\ rmatch block_cmt_regex s Some = None)
    by (unfold s; destruct op; repeat split; reflexivity).
  destruct Hnone as (-> & -> & -> & ->).
  unfold ops. cbn [List.find]. rewrite !starts_with_at. unfold s.
  destruct op; cbn [punct_string list_ascii_of_string length take app];
    repeat first
      [ rewrite bool_decide_eq_true_2 by reflexivity; reflexivity
      | rewrite bool_decide_eq_false_2 by discriminate ].
  rewrite bool_decide_eq_false_2; [reflexivity|].
  intros H. apply Hcolon; [reflexivity|].
  destruct rest as [|c rest]; [discriminate|].
  injection H as ->. reflexivity.
Qed.

(** X19.  Every operator is recognised where it stands, and the longer
    one wins: [:=] is one token, and a colon is the token [:] only when no
    [=] follows it. *)
Theorem lex_operator op pre rest :
  (op = Colon -> head rest <> Some "="%char) ->
  lex (pre ++ list_ascii_of_string (punct_string op) ++ rest) (length pre)
  = ret (TokPunct op,
         (length pre + String.length (punct_string op))%nat).
Proof. exact (lex_operator_aux op pre rest). Qed.

Lemma lex_operator_witness :
  lex (list_ascii_of_string "a := b") 2 = ret (TokPunct ColonEq, 4%nat).
Proof.
  apply (lex_operator ColonEq (list_ascii_of_string "a ")
           (list_ascii_of_string " b")).
  discriminate.
Defined.

Lemma exec_sticky_length r text start m :
  exec_sticky r text start = Some m ->
  (start + length m <= length text)%nat.
Proof.
  unfold exec_sticky.
  destruct (Nat.ltb_spec (length text) start) as [Hlt|Hle]; [discriminate|].
  destruct (rmatch r (drop start text) Some) as [rest|]; [|discriminate].
  intros Hm. injection Hm as <-.
  rewrite length_take, length_drop. lia.
Qed.

(** X20.  A token is never empty and never runs over the end of the text:
    when [lex] returns, the new offset is beyond the old one and at most
    the length of the text. *)
Theorem lex_offset text start out token start' :
  lex text start = (out, Normal (token, start')) ->
  (start < start' <= length text)%nat.
Proof.
  intros H. split; [eapply lex_advances; exact H|].
  revert H. unfold lex.
  destruct (exec_sticky ident_regex text start) as [m|] eqn:H1.
  { intros H. injection H as _ _ <-. eapply exec_sticky_length; exact H1. }
  destruct (exec_sticky ws_regex text start) as [m|] eqn:H2.
  { intros H. injection H as _ _ <-. eapply exec_sticky_length; exact H2. }
  destruct (exec_sticky line_cmt_regex text start) as [m|] eqn:H3.
  { intros H. injection H as _ _ <-. eapply exec_sticky_length; exact H3. }
  destruct (exec_sticky block_cmt_regex text start) as [m|] eqn:H4.
  { intros H. injection H as _ _ <-. eapply exec_sticky_length; exact H4. }
  destruct (List.find _ ops) as [op|] eqn:Hf; [|discriminate].
  intros H. injection H as _ _ <-.
  apply List.find_some in Hf as [_ Hf]. unfold starts_with in Hf.
  apply bool_decide_eq_true in Hf.
  apply (f_equal length) in Hf.
  rewrite length_take, length_drop in Hf.
  destruct op;
    cbn [punct_string list_ascii_of_string length String.length] in Hf |- *;
    lia.
Qed.

Lemma lex_offset_witness : (4 < 12 <= 13)%nat.
Proof.
  apply (lex_offset (list_ascii_of_string "a : Nat.zero;") 4 []
           (TokIdent "Nat.zero") 12).
  vm_compute. reflexivity.
Defined.

(** X21.  A block comment with no star in its body is one comment token
    from the [/*] to the first [*/], both included. *)
Theorem lex_block_comment_to_first_close pre body rest :
  Forall (fun c => c <> star) body ->
  lex (pre ++ slash :: star :: body ++ star :: slash :: rest) (length pre)
  = ret (TokComment
           (string_of_list_ascii (slash :: star :: body ++ [star; slash])),
         (length pre + (length body + 4))%nat).
Proof. apply lex_block_comment_plain. Qed.

Lemma lex_block_comment_to_first_close_witness :
  lex (list_ascii_of_string "a /* b */ c */") 2
  = ret (TokComment "/* b */", 9%nat).
Proof.
  apply (lex_block_comment_to_first_close (list_ascii_of_string "a ")
           (list_ascii_of_string " b ") (list_ascii_of_string " c */")).
  repeat constructor; discriminate.
Defined.

(** ** The parser *)

(** X22.  [parse] always comes to an end, whatever the text: it returns
    the declarations or it throws. *)
Theorem parse_returns_or_throws text :
  (exists out ast, parse text = (out, Normal ast))
  \/ (exists out msg, parse text = (out, Throw msg)).
Proof.
  pose proof (parse_finishes text) as H. unfold finishes, outcome in H.
  destruct (parse text) as [out [ast|msg|]]; simpl in H;
    [left|right|congruence]; eauto.
Qed.

Lemma tokenize_significant fuel : forall text start tokens out tokens',
  Forall (fun t => significant t = true) tokens ->
  tokenize fuel text start tokens = (out, Normal tokens') ->
  Forall (fun t => significant t = true) tokens'.
Proof.
  induction fuel as [|fuel IH]; intros text start tokens out tokens' Hall H;
    simpl in H.
  - destruct (length text <=? start)%nat; [|discriminate].
    injection H as _ <-. exact Hall.
  - destruct (length text <=? start)%nat.
    { injection H as _ <-. exact Hall. }
    apply io_bind_normal in H as (o1 & [token start'] & o2 & _ & H & _).
    cbv beta iota in H.
    destruct token; try (eapply IH; [|exact H]; try exact Hall);
      apply Forall_app; split; try exact Hall; repeat constructor.
Qed.

(** X23.  The parser never sees white space or a comment: when the text
    has been cut into tokens, none of the tokens kept is one of these. *)
Theorem tokens_are_significant text out tokens :
  tokenize (length text) text 0 [] = (out, Normal tokens) ->
  Forall (fun t => t <> TokWhitespace /\ forall c, t <> TokComment c) tokens.
Proof.
  intros H. apply tokenize_significant in H; [|constructor].
  eapply Forall_impl; [exact H|].
  intros t Ht. destruct t; try discriminate; split; intros; discriminate.
Qed.

Lemma tokens_are_significant_witness :
  Forall (fun t => t <> TokWhitespace /\ forall c, t <> TokComment c)
    [TokIdent "a"; TokPunct Colon; TokIdent "b"; TokPunct Semi].
Proof.
  apply (tokens_are_significant
           (list_ascii_of_string "a : /* x */ b; // y") []).
  vm_compute. reflexivity.
Defined.

Lemma fold_ops_acc ops : forall tail top below r,
  fold_ops ops tail top below r
  = let '(top', below', r') := fold_ops ops tail top [] [] in
    (top', below' ++ below, r' ++ r).
Proof.
  induction ops as [|op ops IH]; intros tail top below r.
  - destruct tail; reflexivity.
  - destruct tail as [|e tail]; [destruct op; reflexivity|].
    destruct op; simpl.
    + apply IH.
    + rewrite IH, (IH tail e [top] [OpLambda]).
      destruct (fold_ops ops tail e [] []) as [[top' below'] r'].
      rewrite <- !app_assoc. reflexivity.
    + rewrite IH, (IH tail e [top] [OpPi]).
      destruct (fold_ops ops tail e [] []) as [[top' below'] r'].
      rewrite <- !app_assoc. reflexivity.
Qed.

Lemma fold_ops_lengths ops : forall tail top,
  let '(_, below, r) := fold_ops ops tail top [] [] in
  length below = length r.
Proof.
  induction ops as [|op ops IH]; intros tail top.
  - destruct tail; reflexivity.
  - destruct tail as [|e tail]; [destruct op; reflexivity|].
    destruct op; simpl.
    + apply IH.
    + rewrite fold_ops_acc. specialize (IH tail e).
      destruct (fold_ops ops tail e [] []) as [[top' below'] r'].
      rewrite !length_app. simpl. lia.
    + rewrite fold_ops_acc. specialize (IH tail e).
      destruct (fold_ops ops tail e [] []) as [[top' below'] r'].
      rewrite !length_app. simpl. lia.
Qed.

Lemma unwind_ops_app r : forall below r0 below0 result,
  length below = length r ->
  unwind_ops (r ++ r0) (below ++ below0) result
  = unwind_ops r0 below0 (unwind_ops r below result).
Proof.
  induction r as [|op r IH]; intros below r0 below0 result Hlen.
  - destruct below; [reflexivity|discriminate].
  - destruct below as [|h below]; [discriminate|].
    injection Hlen as Hlen. destruct op; simpl; apply IH; exact Hlen.
Qed.

Lemma build_expression_application expr arg tail ops :
  build_expression expr (arg :: tail) (OpApplication :: ops)
  = build_expression (Application expr arg) tail ops.
Proof. reflexivity. Qed.

Lemma build_expression_arrow op expr t tail ops :
  op <> OpApplication ->
  build_expression expr (t :: tail) (op :: ops)
  = binder_of op expr (build_expression t tail ops).
Proof.
  intros Hop. unfold build_expression.
  assert (Hf : fold_ops (op :: ops) (t :: tail) expr [] []
               = fold_ops ops tail t [expr] [op])
    by (destruct op; [congruence|reflexivity|reflexivity]).
  rewrite Hf, fold_ops_acc.
  pose proof (fold_ops_lengths ops tail t) as Hlen.
  destruct (fold_ops ops tail t [] []) as [[top below] r].
  rewrite unwind_ops_app by exact Hlen.
  destruct op; [congruence|reflexivity|reflexivity].
Qed.

(** X24.  How [parse_expression] puts an expression together from its
    atoms: juxtaposition groups to the left and binds tighter than the
    arrows, and an arrow takes everything after it as its right side.
    So [f a b -> rest] is the binder from [(f a) b] to what [rest]
    builds. *)
Theorem build_expression_spine expr args op t tail ops :
  op <> OpApplication ->
  build_expression expr args (replicate (length args) OpApplication)
  = foldl Application expr args
  /\ build_expression expr (args ++ t :: tail)
       (replicate (length args) OpApplication ++ op :: ops)
     = binder_of op (foldl Application expr args)
         (build_expression t tail ops).
Proof.
  intros Hop. revert expr.
  induction args as [|arg args IH]; intros expr.
  - split; [reflexivity|]. apply build_expression_arrow. exact Hop.
  - destruct (IH (Application expr arg)) as [IH1 IH2].
    split; simpl; rewrite build_expression_application; assumption.
Qed.

Lemma build_expression_spine_witness :
  build_expression (Ident "f") [Ident "a"; Ident "b"]
    (replicate (length [Ident "a"; Ident "b"]) OpApplication)
  = foldl Application (Ident "f") [Ident "a"; Ident "b"]
  /\ build_expression (Ident "f")
       ([Ident "a"; Ident "b"] ++ Ident "g" :: [Ident "c"; Ident "h"])
       (replicate (length [Ident "a"; Ident "b"]) OpApplication
        ++ OpPi :: [OpApplication; OpLambda])
     = binder_of OpPi (foldl Application (Ident "f") [Ident "a"; Ident "b"])
         (build_expression (Ident "g") [Ident "c"; Ident "h"]
            [OpApplication; OpLambda]).
Proof.
  apply (build_expression_spine (Ident "f") [Ident "a"; Ident "b"] OpPi
           (Ident "g") [Ident "c"; Ident "h"] [OpApplication; OpLambda]).
  discriminate.
Defined.

(** ** The checker *)

(** X25.  The rule of application for a function type that does not
    depend on its argument: when [f] has type [A -> B], [B] mentions no
    reference to the binder or beyond and holds no redex, and [member_of]
    accepts [v] for [A], then [f v] has type [B]. *)
Theorem type_of_application_arrow n defs f v refs A B :
  type_of n defs f refs = Normal (Pi A B) ->
  member_of n defs v A refs = Normal true ->
  refs_below 1 B = true ->
  contains_redex B = false ->
  simp_value n B <> OutOfFuel ->
  type_of n defs (Application f v) refs = Normal B.
Proof.
  intros Hf Hm Hb Hr Hn.
  change (type_of n defs (Application f v) refs)
    with (let* fun_ty := type_of n defs f refs in
          apply_type n defs fun_ty v refs).
  rewrite Hf. simpl. unfold apply_type, apply_type_with.
  fold (member_of n defs v A refs). rewrite Hm. simpl.
  rewrite replace_closed_tail by exact Hb. simpl.
  destruct (simp_value_no_redex_safe n B Hr) as [H|H]; congruence.
Qed.

Lemma type_of_application_arrow_witness :
  type_of 1
    (<["f" := mkDef (Pi (Ident "Nat") (Ident "Nat")) None]>
       (<["zero" := mkDef (Ident "Nat") None]> initial_defs))
    (Application (Ident "f") (Ident "zero")) []
  = Normal (Ident "Nat").
Proof.
  apply (type_of_application_arrow 1
           (<["f" := mkDef (Pi (Ident "Nat") (Ident "Nat")) None]>
              (<["zero" := mkDef (Ident "Nat") None]> initial_defs))
           (Ident "f") (Ident "zero") [] (Ident "Nat") (Ident "Nat"));
    try (vm_compute; reflexivity).
  vm_compute. discriminate.
Defined.

(** ** The resolver on ground expressions *)

Lemma bound_index_none (name : string) l : forall i,
  Some name ∉ l -> bound_index l name i = None.
Proof.
  induction l as [|b l IH]; intros i Hnot; [reflexivity|]. simpl.
  apply not_elem_of_cons in Hnot as [Hne Hnot].
  rewrite bool_decide_eq_false_2 by congruence. apply IH. exact Hnot.
Qed.

Lemma axioms_only_push defs e : forall bound,
  axioms_only defs bound e -> axioms_only defs (bound ++ [None]) e.
Proof.
  induction e as [h IHh t IHt|h IHh t IHt|f IHf v IHv|n| |i| |];
    intros bound H; simpl in *; try contradiction.
  - destruct H as (Hb & Hh & Ht). auto.
  - destruct H as (Hb & Hh & Ht). auto.
  - destruct H as (Hf & Hv). auto.
  - destruct H as (Hd & Hn). split; [exact Hd|].
    rewrite elem_of_app, list_elem_of_singleton. intros [H|H];
      [contradiction|discriminate].
Qed.

(** X26.  The resolver gives back unchanged every expression built from
    axioms that are not hidden by a local name, with applications and
    anonymous binders: nothing to number, nothing to inline. *)
Theorem rename_axioms_only defs e : forall bound,
  axioms_only defs bound e -> rename defs e bound = Normal e.
Proof.
  induction e as [h IHh t IHt|h IHh t IHt|f IHf v IHv|n| |i| |];
    intros bound H; simpl in H; try contradiction.
  - destruct H as (Hb & Hh & Ht).
    assert (Hr : rename defs (Pi h t) bound
                 = (let* new_head := rename defs h bound in
                    let* tail' := rename defs t (bound ++ [None]) in
                    Normal (Pi new_head tail')))
      by (destruct h; try reflexivity; destruct (Hb _ _ eq_refl)).
    rewrite Hr, (IHh _ Hh), (IHt _ (axioms_only_push _ _ _ Ht)). reflexivity.
  - destruct H as (Hb & Hh & Ht).
    assert (Hr : rename defs (Lambda h t) bound
                 = (let* new_head := rename defs h bound in
                    let* tail' := rename defs t (bound ++ [None]) in
                    Normal (Lambda new_head tail')))
      by (destruct h; try reflexivity; destruct (Hb _ _ eq_refl)).
    rewrite Hr, (IHh _ Hh), (IHt _ (axioms_only_push _ _ _ Ht)). reflexivity.
  - destruct H as (Hf & Hv). simpl.
    rewrite (IHf _ Hf), (IHv _ Hv). reflexivity.
  - destruct H as ((d & Hd & Hnone) & Hn). simpl.
    rewrite bound_index_none by (rewrite elem_of_reverse; exact Hn).
    rewrite Hd, Hnone. reflexivity.
Qed.

Lemma rename_axioms_only_witness :
  rename initial_defs (Pi (Ident "Type") (Application (Ident "SORRY") (Ident "Type")))
    [Some "x"]
  = Normal (Pi (Ident "Type") (Application (Ident "SORRY") (Ident "Type"))).
Proof.
  apply (rename_axioms_only initial_defs
           (Pi (Ident "Type") (Application (Ident "SORRY") (Ident "Type")))
           [Some "x"]).
  assert (Ht : (exists d, initial_defs !! "Type" = Some d /\ def d = None)
               /\ Some "Type" ∉ [Some "x"]).
  { split; [eexists; split; [vm_compute; reflexivity|reflexivity]|].
    apply not_elem_of_cons. split; [discriminate|apply not_elem_of_nil]. }
  assert (Hs : (exists d, initial_defs !! "SORRY" = Some d /\ def d = None)
               /\ Some "SORRY" ∉ [Some "x"]).
  { split; [eexists; split; [vm_compute; reflexivity|reflexivity]|].
    apply not_elem_of_cons. split; [discriminate|apply not_elem_of_nil]. }
  simpl. repeat split; try discriminate; try apply Ht; try apply Hs.
Defined.

(** ** Printing and parsing *)

Lemma list_ascii_of_string_app s1 s2 :
  list_ascii_of_string (s1 +:+ s2)
  = list_ascii_of_string s1 ++ list_ascii_of_string s2.
Proof. induction s1 as [|c s1 IH]; simpl; [reflexivity|]. rewrite IH. reflexivity. Qed.

Lemma tokenize_S fuel text start tokens :
  (start < length text)%nat ->
  tokenize (S fuel) text start tokens
  = io_bind (lex text start)
      (fun p => tokenize fuel text (snd p) (keep (fst p) tokens)).
Proof.
  intros Hlt. simpl.
  destruct (Nat.leb_spec (length text) start); [lia|].
  apply io_bind_ext. intros [token start']. destruct token; reflexivity.
Qed.

Lemma tokenize_done fuel text start tokens :
  (length text <= start)%nat -> tokenize fuel text start tokens = ret tokens.
Proof.
  intros Hle. destruct fuel; simpl;
    destruct (Nat.leb_spec (length text) start); try lia; reflexivity.
Qed.

Lemma io_bind_ext_normal {A B : Type} (m : io A) (f g : A -> io B) :
  (forall out a, m = (out, Normal a) -> f a = g a) ->
  io_bind m f = io_bind m g.
Proof.
  intros H. destruct m as [o [a|msg|]]; simpl; try reflexivity.
  rewrite (H o a eq_refl). reflexivity.
Qed.

Lemma tokenize_fuel f1 : forall f2 text start tokens,
  (length text - start <= f1)%nat -> (length text - start <= f2)%nat ->
  tokenize f1 text start tokens = tokenize f2 text start tokens.
Proof.
  induction f1 as [|f1 IH]; intros f2 text start tokens H1 H2.
  - rewrite !tokenize_done by lia. reflexivity.
  - destruct (Nat.le_gt_cases (length text) start) as [Hle|Hlt].
    + rewrite !tokenize_done by lia. reflexivity.
    + destruct f2 as [|f2]; [lia|].
      rewrite !tokenize_S by exact Hlt.
      apply io_bind_ext_normal. intros out [token start'] Hl.
      apply lex_advances in Hl. simpl. apply IH; lia.
Qed.

(** One token read from the text [done ++ w ++ todo] at the end of
    [done]. *)
Lemma tokenize_token fuel done w todo token tokens :
  w <> [] ->
  lex (done ++ w ++ todo) (length done)
  = ret (token, (length done + length w)%nat) ->
  (length (done ++ w ++ todo) <= fuel)%nat ->
  tokenize fuel (done ++ w ++ todo) (length done) tokens
  = tokenize fuel ((done ++ w) ++ todo) (length (done ++ w))
      (keep token tokens).
Proof.
  intros Hw Hlex Hfuel.
  assert (Hlen : (0 < length w)%nat) by (destruct w; [congruence|simpl; lia]).
  rewrite !length_app in Hfuel.
  destruct fuel as [|fuel]; [lia|].
  rewrite tokenize_S by (rewrite !length_app; lia).
  rewrite Hlex, io_bind_ret. simpl fst. simpl snd.
  rewrite <- app_assoc, length_app.
  apply tokenize_fuel; rewrite !length_app; lia.
Qed.

Ltac list_eq :=
  repeat first [rewrite <- app_assoc | progress simpl]; reflexivity.

Ltac length_le :=
  repeat first [rewrite length_app in * | progress simpl in *]; lia.

Lemma tokenize_same fuel text text' start start' tokens tokens' :
  text = text' -> start = start' -> tokens = tokens' ->
  tokenize fuel text start tokens = tokenize fuel text' start' tokens'.
Proof. intros -> -> ->. reflexivity. Qed.

Lemma tokenize_operator op fuel done todo tokens :
  (op = Colon -> head todo <> Some "="%char) ->
  (length (done ++ list_ascii_of_string (punct_string op) ++ todo) <= fuel)%nat ->
  tokenize fuel (done ++ list_ascii_of_string (punct_string op) ++ todo)
    (length done) tokens
  = tokenize fuel ((done ++ list_ascii_of_string (punct_string op)) ++ todo)
      (length (done ++ list_ascii_of_string (punct_string op)))
      (tokens ++ [TokPunct op]).
Proof.
  intros Hop Hfuel.
  apply (tokenize_token fuel done _ todo (TokPunct op));
    [destruct op; discriminate| |exact Hfuel].
  rewrite lex_operator_aux by exact Hop.
  unfold ret. do 3 f_equal. destruct op; reflexivity.
Qed.

Lemma tokenize_space fuel done todo tokens :
  (forall c, head todo = Some c -> ws_char c = false) ->
  (length (done ++ [" "%char] ++ todo) <= fuel)%nat ->
  tokenize fuel (done ++ [" "%char] ++ todo) (length done) tokens
  = tokenize fuel ((done ++ [" "%char]) ++ todo)
      (length (done ++ [" "%char])) tokens.
Proof.
  intros Htodo Hfuel.
  apply (tokenize_token fuel done _ todo TokWhitespace);
    [discriminate| |exact Hfuel].
  apply lex_whitespace_aux; [discriminate|repeat constructor|exact Htodo].
Qed.

Lemma tokenize_identifier fuel done name todo tokens :
  valid_ident name ->
  (forall c, head todo = Some c -> ident_char c = false) ->
  (length (done ++ list_ascii_of_string name ++ todo) <= fuel)%nat ->
  tokenize fuel (done ++ list_ascii_of_string name ++ todo)
    (length done) tokens
  = tokenize fuel ((done ++ list_ascii_of_string name) ++ todo)
      (length (done ++ list_ascii_of_string name))
      (tokens ++ [TokIdent name]).
Proof.
  intros [Hne Hall] Htodo Hfuel.
  apply (tokenize_token fuel done _ todo (TokIdent name));
    [exact Hne| |exact Hfuel].
  rewrite lex_identifier_aux by assumption.
  rewrite string_of_list_ascii_of_string. reflexivity.
Qed.

Lemma chars_application fn v :
  chars (Application fn v)
  = list_ascii_of_string "(" ++ chars fn ++ [" "%char] ++ chars v
    ++ list_ascii_of_string ")".
Proof.
  unfold chars. simpl print_expr.
  rewrite !list_ascii_of_string_app. reflexivity.
Qed.

Lemma chars_pi head tail :
  chars (Pi head tail)
  = list_ascii_of_string "(" ++ chars head ++ [" "%char]
    ++ list_ascii_of_string "->" ++ [" "%char] ++ chars tail
    ++ list_ascii_of_string ")".
Proof.
  unfold chars. simpl print_expr.
  rewrite !list_ascii_of_string_app. reflexivity.
Qed.

Lemma chars_lambda head tail :
  chars (Lambda head tail)
  = list_ascii_of_string "(" ++ chars head ++ [" "%char]
    ++ list_ascii_of_string "=>" ++ [" "%char] ++ chars tail
    ++ list_ascii_of_string ")".
Proof.
  unfold chars. simpl print_expr.
  rewrite !list_ascii_of_string_app. reflexivity.
Qed.

(** What is printed starts with a parenthesis or with an identifier
    character, never with white space. *)
Lemma chars_head e todo c :
  printable e -> head (chars e ++ todo) = Some c -> ws_char c = false.
Proof.
  destruct e as [h t|h t|f v|n| |i|n t|]; simpl; try contradiction;
    try (unfold chars; simpl; intros _ H; injection H as <-; reflexivity).
  unfold chars. simpl. intros [Hne Hall] H.
  destruct (list_ascii_of_string n) as [|c' s]; [congruence|].
  injection H as <-. apply Forall_cons in Hall as [Hc _].
  destruct (ws_char c') eqn:Hw; [|reflexivity].
  apply ws_char_not_ident in Hw. congruence.
Qed.

Lemma ident_char_space : ident_char " "%char = false.
Proof. reflexivity. Qed.

Lemma tokenize_print e : forall fuel done todo tokens,
  printable e ->
  (forall c, head todo = Some c -> ident_char c = false) ->
  (length (done ++ chars e ++ todo) <= fuel)%nat ->
  tokenize fuel (done ++ chars e ++ todo) (length done) tokens
  = tokenize fuel ((done ++ chars e) ++ todo) (length (done ++ chars e))
      (tokens ++ unparse e).
Proof.
  induction e as [h IHh t IHt|h IHh t IHt|f IHf v IHv|n| |i| |];
    intros fuel done todo tokens Hp Htodo Hfuel; simpl in Hp;
    try contradiction.
  - (* Pi *)
    destruct Hp as [Hph Hpt]. rewrite chars_pi in *.
    transitivity
      (tokenize fuel
         (done ++ list_ascii_of_string (punct_string LParen) ++ chars h
          ++ [" "%char] ++ list_ascii_of_string (punct_string Arrow)
          ++ [" "%char] ++ chars t
          ++ list_ascii_of_string (punct_string RParen) ++ todo)
         (length done) tokens);
      [apply tokenize_same; [list_eq|reflexivity|reflexivity]|].
    assert (Hlen : (length (done ++ list_ascii_of_string (punct_string LParen)
                      ++ chars h ++ [" "%char]
                      ++ list_ascii_of_string (punct_string Arrow)
                      ++ [" "%char] ++ chars t
                      ++ list_ascii_of_string (punct_string RParen) ++ todo)
                    <= fuel)%nat) by length_le.
    rewrite tokenize_operator by (try discriminate; exact Hlen).
    rewrite IHh;
      [|exact Hph|intros c Hc; injection Hc as <-; reflexivity|length_le].
    rewrite tokenize_space;
      [|intros c Hc; injection Hc as <-; reflexivity|length_le].
    rewrite tokenize_operator by (try discriminate; length_le).
    rewrite tokenize_space;
      [|intros c Hc; eapply chars_head; [exact Hpt|exact Hc]|length_le].
    rewrite IHt;
      [|exact Hpt|intros c Hc; injection Hc as <-; reflexivity|length_le].
    rewrite tokenize_operator by (try discriminate; length_le).
    apply tokenize_same; [list_eq|length_le|list_eq].
  - (* Lambda *)
    destruct Hp as [Hph Hpt]. rewrite chars_lambda in *.
    transitivity
      (tokenize fuel
         (done ++ list_ascii_of_string (punct_string LParen) ++ chars h
          ++ [" "%char] ++ list_ascii_of_string (punct_string FatArrow)
          ++ [" "%char] ++ chars t
          ++ list_ascii_of_string (punct_string RParen) ++ todo)
         (length done) tokens);
      [apply tokenize_same; [list_eq|reflexivity|reflexivity]|].
    assert (Hlen : (length (done ++ list_ascii_of_string (punct_string LParen)
                      ++ chars h ++ [" "%char]
                      ++ list_ascii_of_string (punct_string FatArrow)
                      ++ [" "%char] ++ chars t
                      ++ list_ascii_of_string (punct_string RParen) ++ todo)
                    <= fuel)%nat) by length_le.
    rewrite tokenize_operator by (try discriminate; exact Hlen).
    rewrite IHh;
      [|exact Hph|intros c Hc; injection Hc as <-; reflexivity|length_le].
    rewrite tokenize_space;
      [|intros c Hc; injection Hc as <-; reflexivity|length_le].
    rewrite tokenize_operator by (try discriminate; length_le).
    rewrite tokenize_space;
      [|intros c Hc; eapply chars_head; [exact Hpt|exact Hc]|length_le].
    rewrite IHt;
      [|exact Hpt|intros c Hc; injection Hc as <-; reflexivity|length_le].
    rewrite tokenize_operator by (try discriminate; length_le).
    apply tokenize_same; [list_eq|length_le|list_eq].
  - (* Application *)
    destruct Hp as [Hpf Hpv]. rewrite chars_application in *.
    transitivity
      (tokenize fuel
         (done ++ list_ascii_of_string (punct_string LParen) ++ chars f
          ++ [" "%char] ++ chars v
          ++ list_ascii_of_string (punct_string RParen) ++ todo)
         (length done) tokens);
      [apply tokenize_same; [list_eq|reflexivity|reflexivity]|].
    assert (Hlen : (length (done ++ list_ascii_of_string (punct_string LParen)
                      ++ chars f ++ [" "%char] ++ chars v
                      ++ list_ascii_of_string (punct_string RParen) ++ todo)
                    <= fuel)%nat) by length_le.
    rewrite tokenize_operator by (try discriminate; exact Hlen).
    rewrite IHf;
      [|exact Hpf|intros c Hc; injection Hc as <-; reflexivity|length_le].
    rewrite tokenize_space;
      [|intros c Hc; eapply chars_head; [exact Hpv|exact Hc]|length_le].
    rewrite IHv;
      [|exact Hpv|intros c Hc; injection Hc as <-; reflexivity|length_le].
    rewrite tokenize_operator by (try discriminate; length_le).
    apply tokenize_same; [list_eq|length_le|list_eq].
  - (* Ident *)
    unfold chars. simpl print_expr.
    apply tokenize_identifier; assumption.
Qed.

(** *** The parser on the tokens of a printed expression *)

Lemma drop_cons_inv {A : Type} c (l : list A) t r :
  drop c l = t :: r -> l !! c = Some t /\ drop (S c) l = r.
Proof.
  intros H. split.
  - pose proof (lookup_drop l c 0) as E. rewrite H, Nat.add_0_r in E.
    symmetry. exact E.
  - pose proof (drop_drop l 1 c) as E. rewrite H in E.
    replace (S c) with (c + 1)%nat by lia. symmetry. exact E.
Qed.

Lemma drop_app_inv {A : Type} c (l u r : list A) :
  drop c l = u ++ r -> drop (c + length u) l = r.
Proof.
  intros H. rewrite <- drop_drop, H. apply drop_app_length.
Qed.

Lemma peek_is_drop tokens c token r t :
  drop c tokens = token :: r ->
  peek_is tokens c t = bool_decide (token_type token = t).
Proof.
  intros H. apply drop_cons_inv in H as [H _].
  unfold peek_is, peek_token. rewrite H. reflexivity.
Qed.

Lemma expect_token_drop tokens c token r t :
  drop c tokens = token :: r ->
  token_type token = t ->
  expect_token tokens c t = ret (token, S c).
Proof.
  intros H Ht. apply drop_cons_inv in H as [H _].
  unfold expect_token. rewrite H.
  rewrite bool_decide_eq_true_2 by exact Ht. reflexivity.
Qed.

Lemma parse_atom_S fuel tokens cursor :
  parse_atom (S fuel) tokens cursor
  = if peek_is tokens cursor (TyPunct LParen) then
      let** (_, cursor) := expect_token tokens cursor (TyPunct LParen) in
      let** (res, cursor) :=
        if peek_is tokens cursor TyIdent
           && peek_is tokens (S cursor) (TyPunct Colon)
        then
          let** (name, cursor) := expect_token tokens cursor TyIdent in
          let** (_, cursor) := expect_token tokens cursor (TyPunct Colon) in
          let** (expr, cursor) := parse_expression fuel tokens cursor in
          ret (Binding (token_ident name) expr, cursor)
        else parse_expression fuel tokens cursor in
      let** (_, cursor) := expect_token tokens cursor (TyPunct RParen) in
      ret (res, cursor)
    else if peek_is tokens cursor TyIdent then
      let** (name, cursor) := expect_token tokens cursor TyIdent in
      ret (Ident (token_ident name), cursor)
    else throw "cant".
Proof. reflexivity. Qed.

Lemma parse_expression_S fuel tokens cursor :
  parse_expression (S fuel) tokens cursor
  = (let** (expr, cursor) := parse_atom fuel tokens cursor in
     let** (tail, ops, cursor) := parse_tail fuel tokens cursor [] [] in
     ret (build_expression expr tail ops, cursor)).
Proof. reflexivity. Qed.

Lemma parse_tail_S fuel tokens cursor tail ops :
  parse_tail (S fuel) tokens cursor tail ops
  = if peek_is tokens cursor TyIdent || peek_is tokens cursor (TyPunct LParen)
    then
      let** (atom, cursor) := parse_atom fuel tokens cursor in
      parse_tail fuel tokens cursor (tail ++ [atom]) (ops ++ [OpApplication])
    else if peek_is tokens cursor (TyPunct FatArrow) then
      let** (_, cursor) := expect_token tokens cursor (TyPunct FatArrow) in
      let** (atom, cursor) := parse_atom fuel tokens cursor in
      parse_tail fuel tokens cursor (tail ++ [atom]) (ops ++ [OpLambda])
    else if peek_is tokens cursor (TyPunct Arrow) then
      let** (_, cursor) := expect_token tokens cursor (TyPunct Arrow) in
      let** (atom, cursor) := parse_atom fuel tokens cursor in
      parse_tail fuel tokens cursor (tail ++ [atom]) (ops ++ [OpPi])
    else ret (tail, ops, cursor).
Proof. reflexivity. Qed.

(** The loop of [parse_expression] stops at a token that continues
    nothing. *)
Lemma parse_tail_stop fuel tokens c token r tail ops :
  drop c tokens = token :: r ->
  token_type token <> TyIdent ->
  token_type token <> TyPunct LParen ->
  token_type token <> TyPunct FatArrow ->
  token_type token <> TyPunct Arrow ->
  parse_tail (S fuel) tokens c tail ops = ret (tail, ops, c).
Proof.
  intros H H1 H2 H3 H4. rewrite parse_tail_S.
  rewrite !(peek_is_drop _ _ _ _ _ H).
  rewrite !bool_decide_eq_false_2 by assumption. reflexivity.
Qed.

Lemma unparse_head e :
  printable e ->
  exists token rest,
    unparse e = token :: rest
    /\ (token_type token = TyIdent \/ token_type token = TyPunct LParen).
Proof. destruct e; simpl; try contradiction; intros _; eauto. Qed.

Lemma unparse_length e : printable e -> (1 <= length (unparse e))%nat.
Proof.
  intros H. destruct (unparse_head e H) as (t & r & -> & _). simpl. lia.
Qed.

(** After the parenthesis of a printed expression no annotated binding
    follows. *)
Lemma no_binding_ahead tokens c x token r :
  printable x ->
  drop c tokens = unparse x ++ token :: r ->
  token_type token <> TyPunct Colon ->
  peek_is tokens c TyIdent && peek_is tokens (S c) (TyPunct Colon) = false.
Proof.
  intros Hx H Ht.
  destruct x as [h t|h t|f v|n| |i|n t|]; simpl in Hx; try contradiction;
    simpl in H;
    try (rewrite (peek_is_drop _ _ _ _ _ H); reflexivity).
  apply drop_cons_inv in H as [_ H].
  rewrite (peek_is_drop _ _ _ _ _ H).
  rewrite bool_decide_eq_false_2 by exact Ht. apply andb_false_r.
Qed.

Ltac io_step := rewrite io_bind_ret; cbv beta iota; cbn [orb andb].

Lemma peek_continues tokens c token r :
  drop c tokens = token :: r ->
  token_type token = TyIdent \/ token_type token = TyPunct LParen ->
  peek_is tokens c TyIdent || peek_is tokens c (TyPunct LParen) = true.
Proof.
  intros H Ht. rewrite !(peek_is_drop _ _ _ _ _ H).
  destruct Ht as [-> | ->]; reflexivity.
Qed.

Lemma parse_atom_unparse e : forall fuel tokens c todo,
  printable e ->
  drop c tokens = unparse e ++ todo ->
  (2 * length (unparse e) <= fuel)%nat ->
  parse_atom fuel tokens c = ret (e, (c + length (unparse e))%nat).
Proof.
  induction e as [h IHh t IHt|h IHh t IHt|f IHf v IHv|n| |i| |];
    intros fuel tokens c todo Hp H Hfuel; simpl in Hp; try contradiction.
  - (* Pi *)
    destruct Hp as [Hph Hpt].
    pose proof (unparse_length h Hph) as Lh.
    pose proof (unparse_length t Hpt) as Lt.
    simpl unparse in *. simpl length in *. rewrite !length_app in *.
    simpl length in *. rewrite !length_app in *. simpl length in *.
    destruct fuel as [|[|[|[|fuel]]]]; try lia.
    assert (H0 : drop c tokens
                 = TokPunct LParen :: unparse h ++ TokPunct Arrow
                   :: unparse t ++ TokPunct RParen :: todo)
      by (rewrite H; list_eq).
    destruct (drop_cons_inv _ _ _ _ H0) as [_ H1].
    pose proof (drop_app_inv _ _ _ _ H1) as H2.
    destruct (drop_cons_inv _ _ _ _ H2) as [_ H3].
    pose proof (drop_app_inv _ _ _ _ H3) as H4.
    rewrite parse_atom_S, (peek_is_drop _ _ _ _ _ H0).
    rewrite bool_decide_eq_true_2 by reflexivity.
    rewrite (expect_token_drop _ _ _ _ (TyPunct LParen) H0 eq_refl). io_step.
    rewrite (no_binding_ahead _ _ _ _ _ Hph H1) by discriminate.
    rewrite parse_expression_S.
    rewrite (IHh _ _ _ _ Hph H1) by lia. io_step.
    rewrite parse_tail_S, !(peek_is_drop _ _ _ _ _ H2).
    rewrite !bool_decide_eq_false_2 by discriminate.
    rewrite bool_decide_eq_true_2 by reflexivity. cbn [orb andb].
    rewrite (expect_token_drop _ _ _ _ (TyPunct Arrow) H2 eq_refl). io_step.
    rewrite (IHt _ _ _ _ Hpt H3) by lia. io_step.
    rewrite (parse_tail_stop _ _ _ _ _ _ _ H4) by discriminate. io_step. io_step.
    rewrite (expect_token_drop _ _ _ _ (TyPunct RParen) H4 eq_refl). io_step.
    unfold ret. do 3 f_equal. lia.
  - (* Lambda *)
    destruct Hp as [Hph Hpt].
    pose proof (unparse_length h Hph) as Lh.
    pose proof (unparse_length t Hpt) as Lt.
    simpl unparse in *. simpl length in *. rewrite !length_app in *.
    simpl length in *. rewrite !length_app in *. simpl length in *.
    destruct fuel as [|[|[|[|fuel]]]]; try lia.
    assert (H0 : drop c tokens
                 = TokPunct LParen :: unparse h ++ TokPunct FatArrow
                   :: unparse t ++ TokPunct RParen :: todo)
      by (rewrite H; list_eq).
    destruct (drop_cons_inv _ _ _ _ H0) as [_ H1].
    pose proof (drop_app_inv _ _ _ _ H1) as H2.
    destruct (drop_cons_inv _ _ _ _ H2) as [_ H3].
    pose proof (drop_app_inv _ _ _ _ H3) as H4.
    rewrite parse_atom_S, (peek_is_drop _ _ _ _ _ H0).
    rewrite bool_decide_eq_true_2 by reflexivity.
    rewrite (expect_token_drop _ _ _ _ (TyPunct LParen) H0 eq_refl). io_step.
    rewrite (no_binding_ahead _ _ _ _ _ Hph H1) by discriminate.
    rewrite parse_expression_S.
    rewrite (IHh _ _ _ _ Hph H1) by lia. io_step.
    rewrite parse_tail_S, !(peek_is_drop _ _ _ _ _ H2).
    rewrite !bool_decide_eq_false_2 by discriminate.
    rewrite bool_decide_eq_true_2 by reflexivity. cbn [orb andb].
    rewrite (expect_token_drop _ _ _ _ (TyPunct FatArrow) H2 eq_refl). io_step.
    rewrite (IHt _ _ _ _ Hpt H3) by lia. io_step.
    rewrite (parse_tail_stop _ _ _ _ _ _ _ H4) by discriminate. io_step. io_step.
    rewrite (expect_token_drop _ _ _ _ (TyPunct RParen) H4 eq_refl). io_step.
    unfold ret. do 3 f_equal. lia.
  - (* Application *)
    destruct Hp as [Hpf Hpv].
    pose proof (unparse_length f Hpf) as Lf.
    pose proof (unparse_length v Hpv) as Lv.
    simpl unparse in *. simpl length in *. rewrite !length_app in *.
    simpl length in *.
    destruct fuel as [|[|[|[|fuel]]]]; try lia.
    assert (H0 : drop c tokens
                 = TokPunct LParen :: unparse f ++ unparse v
                   ++ TokPunct RParen :: todo)
      by (rewrite H; list_eq).
    destruct (drop_cons_inv _ _ _ _ H0) as [_ H1].
    pose proof (drop_app_inv _ _ _ _ H1) as H2.
    pose proof (drop_app_inv _ _ _ _ H2) as H3.
    destruct (unparse_head v Hpv) as (tv & rv & Ev & Htv).
    rewrite parse_atom_S, (peek_is_drop _ _ _ _ _ H0).
    rewrite bool_decide_eq_true_2 by reflexivity.
    rewrite (expect_token_drop _ _ _ _ (TyPunct LParen) H0 eq_refl). io_step.
    rewrite (no_binding_ahead tokens (S c) f tv
               (rv ++ TokPunct RParen :: todo) Hpf);
      [|rewrite H1, Ev; reflexivity
       |destruct Htv as [-> | ->]; discriminate].
    rewrite parse_expression_S.
    rewrite (IHf _ _ _ _ Hpf H1) by lia. io_step.
    rewrite parse_tail_S.
    rewrite (peek_continues tokens _ tv (rv ++ TokPunct RParen :: todo));
      [|rewrite H2, Ev; reflexivity|exact Htv].
    rewrite (IHv _ _ _ _ Hpv H2) by lia. io_step.
    rewrite (parse_tail_stop _ _ _ _ _ _ _ H3) by discriminate. io_step. io_step.
    rewrite (expect_token_drop _ _ _ _ (TyPunct RParen) H3 eq_refl). io_step.
    unfold ret. do 3 f_equal. lia.
  - (* Ident *)
    simpl in H, Hfuel |- *. destruct fuel as [|fuel]; [lia|].
    rewrite parse_atom_S, !(peek_is_drop _ _ _ _ _ H).
    rewrite bool_decide_eq_false_2 by discriminate.
    rewrite bool_decide_eq_true_2 by reflexivity.
    rewrite (expect_token_drop _ _ _ _ TyIdent H eq_refl). io_step.
    unfold ret. do 3 f_equal. lia.
Qed.

Lemma parse_statements_S fuel tokens cursor stmts :
  (cursor < length tokens)%nat ->
  parse_statements (S fuel) tokens cursor stmts
  = (let** (stmt, cursor) := parse_statement (S fuel) tokens cursor in
     parse_statements fuel tokens cursor (stmts ++ [stmt])).
Proof.
  intros Hlt. simpl.
  destruct (Nat.leb_spec (length tokens) cursor); [lia|reflexivity].
Qed.

Lemma parse_statements_done fuel tokens cursor stmts :
  (length tokens <= cursor)%nat ->
  parse_statements fuel tokens cursor stmts = ret stmts.
Proof.
  intros Hle. destruct fuel; simpl;
    destruct (Nat.leb_spec (length tokens) cursor); try lia; reflexivity.
Qed.

(** The tokens of a declaration without body whose type is printed. *)
Lemma tokenize_declaration name e :
  valid_ident name -> printable e ->
  tokenize
    (length (list_ascii_of_string (name +:+ " : " +:+ print_expr e +:+ ";")))
    (list_ascii_of_string (name +:+ " : " +:+ print_expr e +:+ ";")) 0 []
  = ret (TokIdent name :: TokPunct Colon :: unparse e ++ [TokPunct Semi]).
Proof.
  intros Hn He.
  rewrite !list_ascii_of_string_app. fold (chars e).
  set (text := list_ascii_of_string name ++ list_ascii_of_string " : "
               ++ chars e ++ list_ascii_of_string ";").
  set (fuel := length text).
  assert (Hfuel : (length text <= fuel)%nat) by reflexivity.
  clearbody fuel. unfold text in *.
  transitivity
    (tokenize fuel
       ([] ++ list_ascii_of_string name ++ [" "%char]
        ++ list_ascii_of_string (punct_string Colon) ++ [" "%char]
        ++ chars e ++ list_ascii_of_string (punct_string Semi) ++ [])
       (length (@nil ascii)) []);
    [apply tokenize_same; [list_eq|reflexivity|reflexivity]|].
  rewrite tokenize_identifier;
    [|exact Hn|intros c Hc; injection Hc as <-; reflexivity|length_le].
  rewrite tokenize_space;
    [|intros c Hc; injection Hc as <-; reflexivity|length_le].
  rewrite tokenize_operator;
    [|intros _ Hc; discriminate|length_le].
  rewrite tokenize_space;
    [|intros c Hc; eapply chars_head; [exact He|exact Hc]|length_le].
  rewrite tokenize_print;
    [|exact He|intros c Hc; injection Hc as <-; reflexivity|length_le].
  rewrite tokenize_operator; [|discriminate|length_le].
  rewrite tokenize_done by (rewrite app_nil_r; lia).
  reflexivity.
Qed.

Lemma parse_declaration_tokens name e :
  printable e ->
  parse_statements
    (2 * length (TokIdent name :: TokPunct Colon :: unparse e
                 ++ [TokPunct Semi]) + 2)
    (TokIdent name :: TokPunct Colon :: unparse e ++ [TokPunct Semi]) 0 []
  = ret [mkStatement name e None].
Proof.
  intros He.
  set (tokens := TokIdent name :: TokPunct Colon :: unparse e
                 ++ [TokPunct Semi]).
  assert (Hlen : length tokens = (length (unparse e) + 3)%nat)
    by (unfold tokens; simpl; rewrite length_app; simpl; lia).
  assert (H0 : drop 0 tokens
               = TokIdent name :: TokPunct Colon :: unparse e
                 ++ [TokPunct Semi]) by reflexivity.
  destruct (drop_cons_inv _ _ _ _ H0) as [_ H1].
  destruct (drop_cons_inv _ _ _ _ H1) as [_ H2].
  pose proof (drop_app_inv _ _ _ _ H2) as H3.
  rewrite Hlen.
  replace (2 * (length (unparse e) + 3) + 2)%nat
    with (S (S (2 * length (unparse e) + 6))) by lia.
  rewrite parse_statements_S by lia.
  unfold parse_statement.
  rewrite (expect_token_drop _ _ _ _ TyIdent H0 eq_refl). io_step.
  rewrite (expect_token_drop _ _ _ _ (TyPunct Colon) H1 eq_refl). io_step.
  rewrite parse_expression_S.
  rewrite (parse_atom_unparse e _ _ _ _ He H2) by lia. io_step.
  rewrite (parse_tail_stop _ _ _ _ _ _ _ H3) by discriminate. io_step.
  io_step.
  rewrite (peek_is_drop _ _ _ _ _ H3).
  rewrite bool_decide_eq_false_2 by discriminate. io_step.
  rewrite (expect_token_drop _ _ _ _ (TyPunct Semi) H3 eq_refl). io_step.
  io_step.
  apply parse_statements_done. lia.
Qed.

(** X27.  What [print_expr] writes, [parse] reads back: a declaration
    whose type is the printed form of an expression made of identifiers,
    applications and binders without names parses to that very
    expression. *)
Theorem parse_print_expr name e :
  valid_ident name -> printable e ->
  parse (name +:+ " : " +:+ print_expr e +:+ ";")
  = ret [mkStatement name e None].
Proof.
  intros Hn He. unfold parse.
  rewrite (tokenize_declaration name e Hn He). rewrite io_bind_ret.
  apply parse_declaration_tokens. exact He.
Qed.

Lemma parse_print_expr_witness :
  parse ("t" +:+ " : "
         +:+ print_expr (Pi (Ident "A") (Application (Ident "P") (Ident "x")))
         +:+ ";")
  = ret [mkStatement "t"
           (Pi (Ident "A") (Application (Ident "P") (Ident "x"))) None].
Proof.
  apply (parse_print_expr "t"
           (Pi (Ident "A") (Application (Ident "P") (Ident "x")))).
  - split; [discriminate|repeat constructor].
  - simpl. repeat split; try discriminate; repeat constructor.
Defined.

(** The tokens of a declaration with a body, type and body printed. *)
Lemma tokenize_definition name ty d :
  valid_ident name -> printable ty -> printable d ->
  tokenize
    (length (list_ascii_of_string
               (name +:+ " : " +:+ print_expr ty +:+ " := "
                +:+ print_expr d +:+ ";")))
    (list_ascii_of_string
       (name +:+ " : " +:+ print_expr ty +:+ " := "
        +:+ print_expr d +:+ ";")) 0 []
  = ret (TokIdent name :: TokPunct Colon :: unparse ty
         ++ TokPunct ColonEq :: unparse d ++ [TokPunct Semi]).
Proof.
  intros Hn Hty Hd.
  rewrite !list_ascii_of_string_app. fold (chars ty). fold (chars d).
  set (text := list_ascii_of_string name ++ list_ascii_of_string " : "
               ++ chars ty ++ list_ascii_of_string " := "
               ++ chars d ++ list_ascii_of_string ";").
  set (fuel := length text).
  assert (Hfuel : (length text <= fuel)%nat) by reflexivity.
  clearbody fuel. unfold text in *.
  transitivity
    (tokenize fuel
       ([] ++ list_ascii_of_string name ++ [" "%char]
        ++ list_ascii_of_string (punct_string Colon) ++ [" "%char]
        ++ chars ty ++ [" "%char]
        ++ list_ascii_of_string (punct_string ColonEq) ++ [" "%char]
        ++ chars d ++ list_ascii_of_string (punct_string Semi) ++ [])
       (length (@nil ascii)) []);
    [apply tokenize_same; [list_eq|reflexivity|reflexivity]|].
  rewrite tokenize_identifier;
    [|exact Hn|intros c Hc; injection Hc as <-; reflexivity|length_le].
  rewrite tokenize_space;
    [|intros c Hc; injection Hc as <-; reflexivity|length_le].
  rewrite tokenize_operator;
    [|intros _ Hc; discriminate|length_le].
  rewrite tokenize_space;
    [|intros c Hc; eapply chars_head; [exact Hty|exact Hc]|length_le].
  rewrite tokenize_print;
    [|exact Hty|intros c Hc; injection Hc as <-; reflexivity|length_le].
  rewrite tokenize_space;
    [|intros c Hc; injection Hc as <-; reflexivity|length_le].
  rewrite tokenize_operator; [|discriminate|length_le].
  rewrite tokenize_space;
    [|intros c Hc; eapply chars_head; [exact Hd|exact Hc]|length_le].
  rewrite tokenize_print;
    [|exact Hd|intros c Hc; injection Hc as <-; reflexivity|length_le].
  rewrite tokenize_operator; [|discriminate|length_le].
  rewrite tokenize_done by (rewrite app_nil_r; lia).
  f_equal. list_eq.
Qed.

Lemma parse_definition_tokens name ty d :
  printable ty -> printable d ->
  parse_statements
    (2 * length (TokIdent name :: TokPunct Colon :: unparse ty
                 ++ TokPunct ColonEq :: unparse d ++ [TokPunct Semi]) + 2)
    (TokIdent name :: TokPunct Colon :: unparse ty
     ++ TokPunct ColonEq :: unparse d ++ [TokPunct Semi]) 0 []
  = ret [mkStatement name ty (Some d)].
Proof.
  intros Hty Hd.
  set (tokens := TokIdent name :: TokPunct Colon :: unparse ty
                 ++ TokPunct ColonEq :: unparse d ++ [TokPunct Semi]).
  assert (Hlen : length tokens
                 = (length (unparse ty) + length (unparse d) + 4)%nat)
    by (unfold tokens; simpl; rewrite length_app; simpl;
        rewrite length_app; simpl; lia).
  assert (H0 : drop 0 tokens
               = TokIdent name :: TokPunct Colon :: unparse ty
                 ++ TokPunct ColonEq :: unparse d ++ [TokPunct Semi])
    by reflexivity.
  destruct (drop_cons_inv _ _ _ _ H0) as [_ H1].
  destruct (drop_cons_inv _ _ _ _ H1) as [_ H2].
  pose proof (drop_app_inv _ _ _ _ H2) as H3.
  destruct (drop_cons_inv _ _ _ _ H3) as [_ H4].
  pose proof (drop_app_inv _ _ _ _ H4) as H5.
  rewrite Hlen.
  replace (2 * (length (unparse ty) + length (unparse d) + 4) + 2)%nat
    with (S (S (2 * length (unparse ty) + 2 * length (unparse d) + 8)))
    by lia.
  rewrite parse_statements_S by lia.
  unfold parse_statement.
  rewrite (expect_token_drop _ _ _ _ TyIdent H0 eq_refl). io_step.
  rewrite (expect_token_drop _ _ _ _ (TyPunct Colon) H1 eq_refl). io_step.
  rewrite parse_expression_S.
  rewrite (parse_atom_unparse ty _ _ _ _ Hty H2) by lia. io_step.
  rewrite (parse_tail_stop _ _ _ _ _ _ _ H3) by discriminate. io_step.
  io_step.
  rewrite (peek_is_drop _ _ _ _ _ H3).
  rewrite bool_decide_eq_true_2 by reflexivity.
  rewrite (expect_token_drop _ _ _ _ (TyPunct ColonEq) H3 eq_refl). io_step.
  rewrite parse_expression_S.
  rewrite (parse_atom_unparse d _ _ _ _ Hd H4) by lia. io_step.
  rewrite (parse_tail_stop _ _ _ _ _ _ _ H5) by discriminate. io_step.
  io_step. io_step.
  rewrite (expect_token_drop _ _ _ _ (TyPunct Semi) H5 eq_refl). io_step.
  io_step.
  apply parse_statements_done. lia.
Qed.

(** X28.  The round trip holds for a declaration with a body as well:
    type and body, each printed by [print_expr], are read back by
    [parse] as they were. *)
Theorem parse_print_definition name ty d :
  valid_ident name -> printable ty -> printable d ->
  parse (name +:+ " : " +:+ print_expr ty +:+ " := " +:+ print_expr d
         +:+ ";")
  = ret [mkStatement name ty (Some d)].
Proof.
  intros Hn Hty Hd. unfold parse.
  rewrite (tokenize_definition name ty d Hn Hty Hd). rewrite io_bind_ret.
  apply parse_definition_tokens; assumption.
Qed.

Lemma parse_print_definition_witness :
  parse ("id" +:+ " : " +:+ print_expr (Pi (Ident "A") (Ident "A"))
         +:+ " := "
         +:+ print_expr (Lambda (Ident "A") (Application (Ident "f")
                                               (Ident "x")))
         +:+ ";")
  = ret [mkStatement "id" (Pi (Ident "A") (Ident "A"))
           (Some (Lambda (Ident "A")
                    (Application (Ident "f") (Ident "x"))))].
Proof.
  apply (parse_print_definition "id" (Pi (Ident "A") (Ident "A"))
           (Lambda (Ident "A") (Application (Ident "f") (Ident "x")))).
  - split; [discriminate|repeat constructor].
  - simpl. repeat split; try discriminate; repeat constructor.
  - simpl. repeat split; try discriminate; repeat constructor.
Defined.
